(** * SenseEdge social-distancing demo: the detection-to-decision pipeline

    A shallow embedding of the algorithmic core of [demo.py]:
    [compute_iou], [nms], [decode_yolov11_persons] and the three loops of
    [main] that assign person ids, merge duplicate detections and collect
    the pairs of persons that stand too close.

    Numbers.  Python floats (and numpy float32 values) are modelled as exact
    rationals [Q]: rounding, infinities and NaN are outside the model.  A
    float literal is the rational it denotes ([0.25] is [1/4], [1e-6] is
    [1/1000000]).  Python integers are [Z].  Equality of floats is [Qeq]
    ([==]), since [Q] has several representations of one number.  The module
    [Binary64] re-runs [compute_iou] on IEEE binary64 numbers at the
    concrete inputs where the rounded value matters.

    Exceptions.  Code that can raise returns a [result]; the only
    exceptions of the modelled code are [ZeroDivisionError] (float division)
    and [IndexError] (list indexing). *)

From stdpp Require Import base gmap sets list sorting.
From Stdlib Require Import ZArith QArith Qround Lqa Lia Sorted.
From Stdlib Require Floats String.
From Equations Require Import Equations.

Local Open Scope Q_scope.
Set Default Proof Using "Type".

(** ** Exceptions as values *)

Inductive exception := ZeroDivisionError | IndexError.

Inductive result (A : Type) :=
| Ok (a : A)
| Raise (e : exception).
Arguments Ok {A} a.
Arguments Raise {A} e.

Definition bind {A B} (r : result A) (k : A -> result B) : result B :=
  match r with
  | Ok a => k a
  | Raise e => Raise e
  end.

Notation "x <- r ;; k" := (bind r (fun x => k))
  (at level 100, r at next level, right associativity).

(** [for x in xs: st = body(st, x)], where the body can raise. *)
Fixpoint for_each {A S} (body : S -> A -> result S) (xs : list A) (st : S)
  : result S :=
  match xs with
  | [] => Ok st
  | x :: xs' => st' <- body st x ;; for_each body xs' st'
  end.

(** [xs[i]] on a Python list, for [i >= 0]. *)
Definition index {A} (xs : list A) (i : nat) : result A :=
  match xs !! i with
  | Some x => Ok x
  | None => Raise IndexError
  end.

(** ** Python arithmetic on floats *)

Definition Qltb (a b : Q) : bool := negb (Qle_bool b a).

(** [max(a, b)] returns [a] unless [b > a]; [min(a, b)] returns [a] unless
    [b < a]. *)
Definition py_max (a b : Q) : Q := if Qltb a b then b else a.
Definition py_min (a b : Q) : Q := if Qltb b a then b else a.

(** [a / b] on floats. *)
Definition py_div (a b : Q) : result Q :=
  if Qeq_bool b 0 then Raise ZeroDivisionError else Ok (a / b).

(** [int(x)] truncates towards zero. *)
Definition py_int (x : Q) : Z := Z.quot (Qnum x) (Zpos (Qden x)).

(** ** Boxes and IoU *)

(** A box is the tuple [(left, top, right, bottom)], that is
    [(box[0], box[1], box[2], box[3])]. *)
Record Box := mkBox { xmin : Q; ymin : Q; xmax : Q; ymax : Q }.

Definition eps : Q := 1 # 1000000.

Definition compute_iou (boxA boxB : Box) : result Q :=
  let xA := py_max (xmin boxA) (xmin boxB) in
  let yA := py_max (ymin boxA) (ymin boxB) in
  let xB := py_min (xmax boxA) (xmax boxB) in
  let yB := py_min (ymax boxA) (ymax boxB) in
  let interArea := py_max 0 (xB - xA) * py_max 0 (yB - yA) in
  let areaA := (xmax boxA - xmin boxA) * (ymax boxA - ymin boxA) in
  let areaB := (xmax boxB - xmin boxB) * (ymax boxB - ymin boxB) in
  py_div interArea (areaA + areaB - interArea + eps).

(** Two results agree when both raise the same exception or both return
    the same number. *)
Definition result_eq (r s : result Q) : Prop :=
  match r, s with
  | Ok a, Ok b => a == b
  | Raise e, Raise e' => e = e'
  | _, _ => False
  end.

Definition area (b : Box) : Q := (xmax b - xmin b) * (ymax b - ymin b).

(** The invariant of a box: [left <= right] and [top <= bottom]. *)
Definition well_formed (b : Box) : Prop :=
  xmin b <= xmax b /\ ymin b <= ymax b.

(** ** Greedy non-maximum suppression *)

(** A detection is the list [[x1, y1, x2, y2, score]]: [d[:4]] is its box
    and [d[4]] its score. *)
Record Det := mkDet { box : Box; score : Q }.

(** [sorted(dets, key=lambda x: x[4], reverse=True)]: Python's sort is
    stable, also with [reverse=True], so detections of equal score keep
    their order. *)
Fixpoint insert_desc (d : Det) (dets : list Det) : list Det :=
  match dets with
  | [] => [d]
  | e :: dets' =>
      if Qltb (score d) (score e) then e :: insert_desc d dets'
      else d :: e :: dets'
  end.

Fixpoint sorted_desc (dets : list Det) : list Det :=
  match dets with
  | [] => []
  | d :: dets' => insert_desc d (sorted_desc dets')
  end.

(** The inner [for d in dets] loop of [nms], which builds [new_dets]. *)
Definition suppress_body (best : Det) (iou_thresh : Q)
    (new_dets : list Det) (d : Det) : result (list Det) :=
  iou <- compute_iou (box best) (box d) ;;
  Ok (if Qltb iou iou_thresh then new_dets ++ [d] else new_dets).

Definition suppress (best : Det) (iou_thresh : Q) (dets : list Det)
  : result (list Det) :=
  for_each (suppress_body best iou_thresh) dets [].

Lemma suppress_body_length best t dets acc r :
  for_each (suppress_body best t) dets acc = Ok r ->
  (length r <= length acc + length dets)%nat.
Proof.
  revert acc r. induction dets as [|d dets IH]; intros acc r H; simpl in *.
  - injection H as <-. lia.
  - unfold suppress_body at 1 in H.
    destruct (compute_iou (box best) (box d)) as [v|e]; [|discriminate].
    simpl in H. apply IH in H.
    destruct (Qltb v t); [rewrite length_app in H; simpl in H|]; lia.
Qed.

(** The [while dets] loop of [nms].  [inspect] keeps the equation that the
    termination proof needs. *)
Definition inspect {A} (x : A) : {y : A | x = y} := exist _ x eq_refl.

Equations? nms_loop (iou_thresh : Q) (dets keep : list Det)
  : result (list Det) by wf (length dets) lt :=
  nms_loop iou_thresh [] keep := Ok keep;
  nms_loop iou_thresh (best :: dets) keep
    with inspect (suppress best iou_thresh dets) := {
    | exist _ (Ok new_dets) H :=
        nms_loop iou_thresh new_dets (keep ++ [best]);
    | exist _ (Raise e) _ := Raise e }.
Proof.
  apply suppress_body_length in H. simpl in *. lia.
Qed.

Definition nms (dets : list Det) (iou_thresh : Q) : result (list Det) :=
  if (length dets =? 0)%nat then Ok []
  else nms_loop iou_thresh (sorted_desc dets) [].

(** *** Greedy selection, as the specification words it

    [remove_overlapping best t remaining] removes every remaining box whose
    IoU with the selected box is not below [t].  [greedy t remaining kept]:
    as long as boxes remain, the first box of highest remaining score is
    selected and put next into the kept list, and the overlapping ones are
    removed from the others. *)
Fixpoint remove_overlapping (best : Det) (t : Q) (remaining : list Det)
  : result (list Det) :=
  match remaining with
  | [] => Ok []
  | d :: remaining' =>
      iou <- compute_iou (box best) (box d) ;;
      others <- remove_overlapping best t remaining' ;;
      Ok (if Qltb iou t then d :: others else others)
  end.

Inductive greedy (t : Q) : list Det -> list Det -> Prop :=
| greedy_done : greedy t [] []
| greedy_step before best after remaining kept :
    Forall (fun d => score d < score best) before ->
    Forall (fun d => score d <= score best) after ->
    remove_overlapping best t (before ++ after) = Ok remaining ->
    greedy t remaining kept ->
    greedy t (before ++ best :: after) (best :: kept).

(** *** Notions for the proofs *)

(** Whether the IoU with [best] is defined, and whether it is below the
    threshold: [remove_overlapping] is the filter by [below] when every IoU
    is defined. *)
Definition iou_defined (best d : Det) : bool :=
  match compute_iou (box best) (box d) with Ok _ => true | Raise _ => false end.

Definition below (best : Det) (t : Q) (d : Det) : bool :=
  match compute_iou (box best) (box d) with
  | Ok v => Qltb v t
  | Raise _ => false
  end.

(** Descending scores. *)
Definition descending (l : list Det) : Prop :=
  StronglySorted (fun a b => score b <= score a) l.

(** The first box of highest score of [d :: rest], and the others. *)
Fixpoint select_best (d : Det) (rest : list Det) : Det * list Det :=
  match rest with
  | [] => (d, [])
  | e :: rest' =>
      let '(m, r) := select_best e rest' in
      if Qltb (score d) (score m) then (m, d :: r) else (d, rest)
  end.

(** Rationals that are integers. *)
Definition integral (q : Q) : Prop := exists z, q == inject_Z z.

(** ** Decoding the YOLOv11 output *)

Definition INPUT_W : Z := 640.
Definition INPUT_H : Z := 640.
Definition CONF_THRESH : Q := 35 # 100.
Definition IOU_THRESH : Q := 45 # 100.
Definition PERSON_CLASS_ID : nat := 0.

(** A two-dimensional numpy array: its shape and its entries.  A
    one-dimensional array is a list. *)
Record Array2 := mkArray2 {
  shape0 : nat;
  shape1 : nat;
  at2 : nat -> nat -> Q
}.

(** [a[lo:hi, :]], [a[lo:, :]] and [a.T]. *)
Definition rows_between (a : Array2) (lo hi : nat) : Array2 :=
  mkArray2 (Nat.min hi (shape0 a) - lo) (shape1 a)
           (fun i j => at2 a (lo + i) j).

Definition rows_from (a : Array2) (lo : nat) : Array2 :=
  mkArray2 (shape0 a - lo) (shape1 a) (fun i j => at2 a (lo + i) j).

Definition transpose (a : Array2) : Array2 :=
  mkArray2 (shape1 a) (shape0 a) (fun i j => at2 a j i).

(** [a[i, :]] and [a[:, j]]. *)
Definition row (a : Array2) (i : nat) : list Q :=
  map (at2 a i) (seq 0 (shape1 a)).

Definition column (a : Array2) (j : nat) : list Q :=
  map (fun i => at2 a i j) (seq 0 (shape0 a)).

(** [np.argmax] returns the index of the first occurrence of the maximum,
    [np.max] the maximum.  (On an empty sequence numpy raises; the decoder
    calls them on rows of 80 scores only.) *)
Fixpoint argmax_from (best_i : nat) (best_v : Q) (i : nat) (vs : list Q)
  : nat :=
  match vs with
  | [] => best_i
  | v :: vs' =>
      if Qltb best_v v then argmax_from i v (S i) vs'
      else argmax_from best_i best_v (S i) vs'
  end.

Definition argmax (vs : list Q) : nat :=
  match vs with
  | [] => 0%nat
  | v :: vs' => argmax_from 0 v 1 vs'
  end.

Fixpoint max_from (best_v : Q) (vs : list Q) : Q :=
  match vs with
  | [] => best_v
  | v :: vs' => if Qltb best_v v then max_from v vs' else max_from best_v vs'
  end.

Definition amax (vs : list Q) : Q :=
  match vs with
  | [] => 0
  | v :: vs' => max_from v vs'
  end.

(** [np.argmax(a, axis=1)] and [np.max(a, axis=1)]. *)
Definition argmax_axis1 (a : Array2) : list nat :=
  map (fun i => argmax (row a i)) (seq 0 (shape0 a)).

Definition max_axis1 (a : Array2) : list Q :=
  map (fun i => amax (row a i)) (seq 0 (shape0 a)).

(** Indexing with a boolean mask: [v[mask]] and [a[mask]] (rows). *)
Fixpoint select {A} (mask : list bool) (v : list A) : list A :=
  match mask, v with
  | m :: mask', x :: v' =>
      if m then x :: select mask' v' else select mask' v'
  | _, _ => []
  end.

Definition select_rows (a : Array2) (mask : list bool) : Array2 :=
  let rows := select mask (seq 0 (shape0 a)) in
  mkArray2 (length rows) (shape1 a) (fun i j => at2 a (nth i rows 0%nat) j).

(** [(cls_ids == PERSON_CLASS_ID) & (cls_scores > conf_thres)]. *)
Definition person_mask (cls_ids : list nat) (cls_scores : list Q)
    (conf_thres : Q) : list bool :=
  zip_with andb (map (fun c => (c =? PERSON_CLASS_ID)%nat) cls_ids)
                (map (fun s => Qltb conf_thres s) cls_scores).

(** The loop [for i in range(len(cls_scores)): dets.append([...])]. *)
Definition collect_body (x1 y1 x2 y2 cls_scores : list Q)
    (dets : list Det) (i : nat) : result (list Det) :=
  a <- index x1 i ;;
  b <- index y1 i ;;
  c <- index x2 i ;;
  d <- index y2 i ;;
  s <- index cls_scores i ;;
  Ok (dets ++ [mkDet (mkBox a b c d) s]).

(** Everything in [decode_yolov11_persons] before the call of [nms];
    [None] stands for the two early [return []]. *)
Definition decode_candidates (out : Array2) (orig_w orig_h : Z)
    (conf_thres : Q) : option (result (list Det)) :=
  if negb (shape0 out =? 84)%nat then None
  else
    let boxes := rows_between out 0 4 in
    let scores := rows_from out 4 in
    let boxes := transpose boxes in
    let scores := transpose scores in
    let cls_ids := argmax_axis1 scores in
    let cls_scores := max_axis1 scores in
    let mask := person_mask cls_ids cls_scores conf_thres in
    if negb (existsb (fun m => m) mask) then None
    else
      let boxes := select_rows boxes mask in
      let cls_scores := select mask cls_scores in
      let cx := column boxes 0 in
      let cy := column boxes 1 in
      let w := column boxes 2 in
      let h := column boxes 3 in
      let x1 := zip_with Qminus cx (map (fun v => v / 2) w) in
      let y1 := zip_with Qminus cy (map (fun v => v / 2) h) in
      let x2 := zip_with Qplus cx (map (fun v => v / 2) w) in
      let y2 := zip_with Qplus cy (map (fun v => v / 2) h) in
      let scale_x := inject_Z orig_w / inject_Z INPUT_W in
      let scale_y := inject_Z orig_h / inject_Z INPUT_H in
      let x1 := map (fun v => v * scale_x) x1 in
      let x2 := map (fun v => v * scale_x) x2 in
      let y1 := map (fun v => v * scale_y) y1 in
      let y2 := map (fun v => v * scale_y) y2 in
      Some (for_each (collect_body x1 y1 x2 y2 cls_scores)
                     (seq 0 (length cls_scores)) []).

Definition decode_yolov11_persons (output : list Array2) (orig_w orig_h : Z)
    (conf_thres : Q) : result (list Det) :=
  out <- index output 0 ;;
  match decode_candidates out orig_w orig_h conf_thres with
  | None => Ok []
  | Some candidates => dets <- candidates ;; nms dets IOU_THRESH
  end.

(** *** The decoder's filter and box transform, as the specification words
    them

    An anchor survives the class/confidence filter when its person score
    (attribute 4) is a greatest class score and exceeds the threshold.  Its
    box is [(cx - w/2, cy - h/2, cx + w/2, cy + h/2)], the x-coordinates
    multiplied by [orig_w / INPUT_W] and the y-coordinates by
    [orig_h / INPUT_H]. *)
Definition person_best (out : Array2) (a : nat) : bool :=
  forallb (fun c => Qle_bool (at2 out (4 + c) a) (at2 out 4 a)) (seq 0 80).

Definition survives (out : Array2) (conf_thres : Q) (a : nat) : bool :=
  person_best out a && Qltb conf_thres (at2 out 4 a).

Definition xyxy (out : Array2) (orig_w orig_h : Z) (a : nat) : Box :=
  let cx := at2 out 0 a in
  let cy := at2 out 1 a in
  let w := at2 out 2 a in
  let h := at2 out 3 a in
  mkBox ((cx - w / 2) * (inject_Z orig_w / inject_Z INPUT_W))
        ((cy - h / 2) * (inject_Z orig_h / inject_Z INPUT_H))
        ((cx + w / 2) * (inject_Z orig_w / inject_Z INPUT_W))
        ((cy + h / 2) * (inject_Z orig_h / inject_Z INPUT_H)).

Definition anchor_det (out : Array2) (orig_w orig_h : Z) (a : nat) : Det :=
  mkDet (xyxy out orig_w orig_h a) (at2 out 4 a).

(** ** IEEE binary64 cross-check of [compute_iou]

    The same function on Rocq's primitive binary64 floats, which are
    Python's floats.  [max(0, x)] of an integer zero and a float is the
    integer zero unless [x > 0]; multiplied or divided with a float it acts
    as [0.0]. *)
Module Binary64.
Import Floats.
Local Open Scope float_scope.

Definition py_max (a b : float) : float := if ltb a b then b else a.
Definition py_min (a b : float) : float := if ltb b a then b else a.

Definition compute_iou (a b : float * float * float * float) : float :=
  let '(a0, a1, a2, a3) := a in
  let '(b0, b1, b2, b3) := b in
  let xA := py_max a0 b0 in
  let yA := py_max a1 b1 in
  let xB := py_min a2 b2 in
  let yB := py_min a3 b3 in
  let interArea := py_max 0 (xB - xA) * py_max 0 (yB - yA) in
  let areaA := (a2 - a0) * (a3 - a1) in
  let areaB := (b2 - b0) * (b3 - b1) in
  interArea / (areaA + areaB - interArea + 0x1.0c6f7a0b5ed8dp-20).

(** The literal above is [1e-6].  On binary64 numbers: the IoU of [(0, 0, 10, 10)] with itself is
    [0.99999999000000017], and the IoU of two disjoint boxes is [0.0],
    which is not below a threshold of [0.0]. *)
Example iou_self :
  eqb (compute_iou (0, 0, 10, 10) (0, 0, 10, 10)) 1 = false
  /\ ltb (compute_iou (0, 0, 10, 10) (0, 0, 10, 10)) 1 = true.
Proof. split; reflexivity. Qed.

Example iou_disjoint :
  eqb (compute_iou (0, 0, 10, 10) (50, 50, 60, 60)) 0 = true
  /\ ltb (compute_iou (0, 0, 10, 10) (50, 50, 60, 60)) 0 = false.
Proof. split; reflexivity. Qed.

End Binary64.

(** ** The tensor names of the engine

    The loop of [TRT_YOLOv11.__init__] over [range(num_io_tensors)].  The
    engine is seen through [get_tensor_name], here the list of the names in
    index order, and [get_tensor_mode]. *)
Module Engine.
Import String.

Inductive TensorIOMode := NONE | INPUT | OUTPUT.

Definition is_input (mode : TensorIOMode) : bool :=
  match mode with INPUT => true | _ => false end.

Definition find_names (tensor_names : list string)
    (get_tensor_mode : string -> TensorIOMode)
  : option string * option string :=
  fold_left (fun '(input_name, output_name) name =>
               match get_tensor_mode name with
               | INPUT => (Some name, output_name)
               | _ => (input_name, Some name)
               end)
            tensor_names (None, None).

Lemma find_names_fold (tensor_names : list string)
    (get_tensor_mode : string -> TensorIOMode)
    (input_name output_name : option string) :
  fold_left (fun '(input_name, output_name) name =>
               match get_tensor_mode name with
               | INPUT => (Some name, output_name)
               | _ => (input_name, Some name)
               end)
            tensor_names (input_name, output_name)
  = (match last (List.filter (fun n => is_input (get_tensor_mode n))
                             tensor_names) with
     | Some n => Some n
     | None => input_name
     end,
     match last (List.filter (fun n => negb (is_input (get_tensor_mode n)))
                             tensor_names) with
     | Some n => Some n
     | None => output_name
     end).
Proof.
  revert input_name output_name.
  induction tensor_names as [|name l IH]; intros input_name output_name;
    [done|].
  simpl. destruct (get_tensor_mode name) eqn:E; simpl; rewrite IH;
    f_equal;
    match goal with
    | |- context [last (name :: ?k)] =>
        rewrite (last_cons name k); by destruct (last k)
    | _ => done
    end.
Qed.

(** X26: [input_name] is the name of the last tensor in [INPUT] mode and
    [output_name] the name of the last tensor in any other mode; each is
    [None] when the engine has no such tensor. *)
Theorem find_names_last (tensor_names : list string)
    (get_tensor_mode : string -> TensorIOMode) :
  find_names tensor_names get_tensor_mode
  = (last (List.filter (fun n => is_input (get_tensor_mode n)) tensor_names),
     last (List.filter (fun n => negb (is_input (get_tensor_mode n)))
                       tensor_names)).
Proof.
  unfold find_names. rewrite find_names_fold.
  f_equal; match goal with |- context [last ?k] => by destruct (last k) end.
Qed.

(** An engine with the input [images] and the output [output0], in either
    order. *)
Definition yolo_mode (name : string) : TensorIOMode :=
  if String.eqb name "images" then INPUT else OUTPUT.

Example find_names_yolo :
  find_names ["images"; "output0"]%string yolo_mode
  = (Some "images", Some "output0")%string
  /\ find_names ["output0"; "images"]%string yolo_mode
     = (Some "images", Some "output0")%string.
Proof. split; reflexivity. Qed.

End Engine.

(** ** Preprocessing a frame

    A frame is a [uint8] array of shape [(H, W, 3)]; [cv.resize] is the
    collaborator that scales it.  [cv.cvtColor(img, cv.COLOR_BGR2RGB)]
    exchanges the channels 0 and 2. *)
Record Image := mkImage {
  img_rows : nat;
  img_cols : nat;
  img_chans : nat;
  img_px : nat -> nat -> nat -> Z
}.

(** An array of floats with three or four axes. *)
Record Array3 := mkArray3 {
  a3_shape : nat * nat * nat;
  a3_at : nat -> nat -> nat -> Q
}.

Record Array4 := mkArray4 {
  a4_shape : nat * nat * nat * nat;
  a4_at : nat -> nat -> nat -> nat -> Q
}.

Definition cvtColor_BGR2RGB (img : Image) : Image :=
  mkImage (img_rows img) (img_cols img) (img_chans img)
          (fun y x c => img_px img y x (2 - c)).

(** [img.astype(np.float32) / 255.0], [np.transpose(img, (2, 0, 1))] and
    [np.expand_dims(img, axis=0)]. *)
Definition normalize (img : Image) : Array3 :=
  mkArray3 (img_rows img, img_cols img, img_chans img)
           (fun y x c => inject_Z (img_px img y x c) / 255).

Definition transpose_201 (a : Array3) : Array3 :=
  let '(d0, d1, d2) := a3_shape a in
  mkArray3 (d2, d0, d1) (fun c y x => a3_at a y x c).

Definition expand_dims_0 (a : Array3) : Array4 :=
  let '(d0, d1, d2) := a3_shape a in
  mkArray4 (1%nat, d0, d1, d2) (fun _ c y x => a3_at a c y x).

Definition preprocess (resize : Image -> Z * Z -> Image) (frame : Image)
  : Array4 :=
  let img := resize frame (INPUT_W, INPUT_H) in
  let img := cvtColor_BGR2RGB img in
  let img := normalize img in
  let img := transpose_201 img in
  let img := expand_dims_0 img in
  img.

(** ** The per-frame loops of [main] *)

(** An entry of [person_positions] is the tuple [(id, X, Y, Z)], an entry of
    [person_boxes] the list [[id, left, top, right, bottom, depth_m]] with
    integer pixel coordinates. *)
Record PersonPos := mkPersonPos { pos_id : Z; pX : Q; pY : Q; pZ : Q }.

Record PersonBox := mkPersonBox {
  pid : Z;
  pleft : Z;
  ptop : Z;
  pright : Z;
  pbottom : Z;
  depth_m : Q
}.

(** An entry of [close_pairs] is the tuple [(pid1, pid2, dist3)]. *)
Definition Alert : Type := Z * Z * Q.

(** [(l, t, r, b)] as a box for [compute_iou]. *)
Definition box_of (pb : PersonBox) : Box :=
  mkBox (inject_Z (pleft pb)) (inject_Z (ptop pb))
        (inject_Z (pright pb)) (inject_Z (pbottom pb)).

Section Frame.

(** The camera and numeric collaborators of one frame: the aligned depth
    image ([depth_image.shape] and its pixels; the code clamps every index
    it reads into the shape), the depth scale,
    [rs2_deproject_pixel_to_point] at the frame's intrinsics, and the
    square root behind [np.linalg.norm] and [** 0.5]. *)
Variable depth_rows depth_cols : Z.
Variable depth_image : Z -> Z -> Z.
Variable depth_scale : Q.
Variable deproject : Z -> Z -> Q -> Q * Q * Q.
Variable sqrt : Q -> Q.

(** Proofs that do not concern the camera drop it from their context. *)
Ltac forget_camera :=
  clear depth_rows depth_cols depth_image depth_scale deproject.
Ltac forget_frame := forget_camera; clear sqrt.

(** [np.linalg.norm(np.array([X1, Y1, Z1]) - np.array([X2, Y2, Z2]))]. *)
Definition norm_diff (p q : Q * Q * Q) : Q :=
  let '(X1, Y1, Z1) := p in
  let '(X2, Y2, Z2) := q in
  sqrt ((X1 - X2) ^ 2 + (Y1 - Y2) ^ 2 + (Z1 - Z2) ^ 2).

(** *** 3. Get 3D coordinates: one round of [for det in dets] *)
Definition locate (orig_w orig_h : Z)
    (st : list PersonPos * list PersonBox * Z) (det : Det)
  : list PersonPos * list PersonBox * Z :=
  let '(person_positions, person_boxes, id_counter) := st in
  let left := xmin (box det) in
  let top := ymin (box det) in
  let right := xmax (box det) in
  let bottom := ymax (box det) in
  let left_i := py_int (py_max 0 (py_min (inject_Z (orig_w - 1)) left)) in
  let top_i := py_int (py_max 0 (py_min (inject_Z (orig_h - 1)) top)) in
  let right_i := py_int (py_max 0 (py_min (inject_Z (orig_w - 1)) right)) in
  let bottom_i :=
    py_int (py_max 0 (py_min (inject_Z (orig_h - 1)) bottom)) in
  let cx := py_int (inject_Z (left_i + right_i) / 2) in
  let cy := py_int (inject_Z (top_i + bottom_i) / 2) in
  let cy := Z.max 0 (Z.min cy (depth_rows - 1)) in
  let cx := Z.max 0 (Z.min cx (depth_cols - 1)) in
  let depth_value := inject_Z (depth_image cy cx) * depth_scale in
  let '(X, Y, Z) := deproject cx cy depth_value in
  (person_positions ++ [mkPersonPos id_counter X Y Z],
   person_boxes
     ++ [mkPersonBox id_counter left_i top_i right_i bottom_i depth_value],
   (id_counter + 1)%Z).

Definition locate_all (orig_w orig_h : Z) (dets : list Det)
  : list PersonPos * list PersonBox :=
  fst (fold_left (locate orig_w orig_h) dets ([], [], 1%Z)).

(** *** 4. IoU + 3D merge *)

(** The distance between the two box centres, in pixels. *)
Definition pixel_dist (pb1 pb2 : PersonBox) : Q :=
  let cx1 := inject_Z (pleft pb1 + pright pb1) * (1 # 2) in
  let cy1 := inject_Z (ptop pb1 + pbottom pb1) * (1 # 2) in
  let cx2 := inject_Z (pleft pb2 + pright pb2) * (1 # 2) in
  let cy2 := inject_Z (ptop pb2 + pbottom pb2) * (1 # 2) in
  sqrt ((cx1 - cx2) ^ 2 + (cy1 - cy2) ^ 2).

Definition dist3d (pp1 pp2 : PersonPos) : Q :=
  norm_diff (pX pp1, pY pp1, pZ pp1) (pX pp2, pY pp2, pZ pp2).

(** The values computed for a pair [(i, j)] and the [# Merge logic] test
    on them. *)
Definition merge_logic (pb1 : PersonBox) (pp1 : PersonPos)
    (pb2 : PersonBox) (pp2 : PersonPos) : result bool :=
  iou <- compute_iou (box_of pb1) (box_of pb2) ;;
  Ok ((Qltb (25 # 100) iou && Qltb (dist3d pp1 pp2) (35 # 100))
      || Qltb (pixel_dist pb1 pb2) 140).

(** One round of [for j in range(i + 1, len(person_boxes))]. *)
Definition merge_inner (person_boxes : list PersonBox)
    (person_positions : list PersonPos) (pb1 : PersonBox) (pp1 : PersonPos)
    (skip : gset nat) (j : nat) : result (gset nat) :=
  if decide (j ∈ skip) then Ok skip
  else
    pb2 <- index person_boxes j ;;
    pp2 <- index person_positions j ;;
    dup <- merge_logic pb1 pp1 pb2 pp2 ;;
    Ok (if dup then {[j]} ∪ skip else skip).

(** One round of [for i in range(len(person_boxes))]. *)
Definition merge_outer (person_boxes : list PersonBox)
    (person_positions : list PersonPos)
    (st : list PersonBox * gset nat) (i : nat)
  : result (list PersonBox * gset nat) :=
  let '(merged, skip) := st in
  if decide (i ∈ skip) then Ok (merged, skip)
  else
    pb1 <- index person_boxes i ;;
    pp1 <- index person_positions i ;;
    skip' <- for_each (merge_inner person_boxes person_positions pb1 pp1)
               (seq (S i) (length person_boxes - S i)) skip ;;
    Ok (merged ++ [pb1], skip').

(** The whole merge: the final [(merged, skip)]. *)
Definition merge_state (person_boxes : list PersonBox)
    (person_positions : list PersonPos)
  : result (list PersonBox * gset nat) :=
  for_each (merge_outer person_boxes person_positions)
           (seq 0 (length person_boxes)) ([], ∅).

Definition merge (person_boxes : list PersonBox)
    (person_positions : list PersonPos) : result (list PersonBox) :=
  st <- merge_state person_boxes person_positions ;; Ok (fst st).

(** *** 5. Inter-person distance *)

(** The 3D point of a person: the deprojected centre of the box. *)
Definition center_point (pb : PersonBox) : Q * Q * Q :=
  deproject ((pleft pb + pright pb) / 2)%Z ((ptop pb + pbottom pb) / 2)%Z
            (depth_m pb).

Definition pairs_inner (person_boxes : list PersonBox) (i : nat)
    (close_pairs : list Alert) (j : nat) : result (list Alert) :=
  pb1 <- index person_boxes i ;;
  pb2 <- index person_boxes j ;;
  let dist3 := norm_diff (center_point pb1) (center_point pb2) in
  Ok (if Qltb dist3 (8 # 10)
      then close_pairs ++ [(pid pb1, pid pb2, dist3)]
      else close_pairs).

Definition pairs_outer (person_boxes : list PersonBox)
    (close_pairs : list Alert) (i : nat) : result (list Alert) :=
  for_each (pairs_inner person_boxes i)
           (seq (S i) (length person_boxes - S i)) close_pairs.

Definition close_pairs (person_boxes : list PersonBox)
  : result (list Alert) :=
  for_each (pairs_outer person_boxes) (seq 0 (length person_boxes)) [].

(** *** Steps 2 to 5 of one frame *)
Definition process_frame (output : list Array2) (orig_w orig_h : Z)
  : result (list PersonBox * list Alert) :=
  dets <- decode_yolov11_persons output orig_w orig_h CONF_THRESH ;;
  let '(person_positions, person_boxes) :=
    locate_all orig_w orig_h dets in
  person_boxes <- merge person_boxes person_positions ;;
  alerts <- close_pairs person_boxes ;;
  Ok (person_boxes, alerts).

(** *** The survivors of the merge and the duplicate test on indices

    [unskipped skip l k] lists, in their order, the entries of [l] among
    the first [k] whose index is not in [skip].  [duplicate_of l p i j] is
    the outcome of the merge logic on the candidates [i] and [j]. *)
Definition unskipped (skip : gset nat) (l : list PersonBox) (k : nat)
  : list PersonBox :=
  omap (fun i => if decide (i ∈ skip) then None else l !! i) (seq 0 k).

Definition duplicate_of (person_boxes : list PersonBox)
    (person_positions : list PersonPos) (i j : nat) : bool :=
  match person_boxes !! i, person_positions !! i,
        person_boxes !! j, person_positions !! j with
  | Some pb1, Some pp1, Some pb2, Some pp2 =>
      match merge_logic pb1 pp1 pb2 pp2 with
      | Ok dup => dup
      | Raise _ => false
      end
  | _, _, _, _ => false
  end.

(** *** Alerts by index pair

    [alert_at l (i, j)] is the alert of the persons [i] and [j] of [l];
    [lex_lt] is the ascending order of the pairs [(i, j)]. *)
Definition alert_at (person_boxes : list PersonBox) (p : nat * nat)
  : option Alert :=
  match person_boxes !! p.1, person_boxes !! p.2 with
  | Some pb1, Some pb2 =>
      Some (pid pb1, pid pb2, norm_diff (center_point pb1) (center_point pb2))
  | _, _ => None
  end.

Definition lex_lt (p q : nat * nat) : Prop :=
  (p.1 < q.1)%nat \/ (p.1 = q.1 /\ (p.2 < q.2)%nat).

Definition close_at (person_boxes : list PersonBox) (i j : nat) : bool :=
  match alert_at person_boxes (i, j) with
  | Some (_, _, dist3) => Qltb dist3 (8 # 10)
  | None => false
  end.

Definition row_pairs (person_boxes : list PersonBox) (i : nat)
  : list (nat * nat) :=
  map (pair i) (List.filter (close_at person_boxes i)
                            (seq (S i) (length person_boxes - S i))).

(** *** Concrete inputs *)
Definition box10 : Box := mkBox 0 0 10 10.

(** Boxes [[0,0,10,10,0.9]], [[1,1,11,11,0.8]] and [[50,50,60,60,0.7]]. *)
Definition detA : Det := mkDet (mkBox 0 0 10 10) (9 # 10).
Definition detB : Det := mkDet (mkBox 1 1 11 11) (8 # 10).
Definition detC : Det := mkDet (mkBox 50 50 60 60) (7 # 10).

(** One anchor [(cx, cy, w, h) = (320, 240, 100, 200)] whose person score
    is 0.9; in [tensor_tie] class 7 has the score 0.9 as well. *)
Definition tensor_one : Array2 :=
  mkArray2 84 1 (fun i _ =>
    if (i =? 0)%nat then 320 else if (i =? 1)%nat then 240
    else if (i =? 2)%nat then 100 else if (i =? 3)%nat then 200
    else if (i =? 4)%nat then 9 # 10 else 0).

Definition tensor_tie : Array2 :=
  mkArray2 84 1 (fun i _ =>
    if (i =? 0)%nat then 320 else if (i =? 1)%nat then 240
    else if (i =? 2)%nat then 100 else if (i =? 3)%nat then 200
    else if (i =? 4)%nat then 9 # 10 else if (i =? 11)%nat then 9 # 10
    else 0).

(** Two persons, 300 input pixels apart. *)
Definition tensor_two : Array2 :=
  mkArray2 84 2 (fun i a =>
    if (i =? 0)%nat then (if (a =? 0)%nat then 170 else 470)
    else if (i =? 1)%nat then 320
    else if (i =? 2)%nat then 50 else if (i =? 3)%nat then 100
    else if (i =? 4)%nat then (if (a =? 0)%nat then 9 # 10 else 8 # 10)
    else 0).

(** Three anchors without any score, and a tensor of 10 attributes. *)
Definition tensor_none : Array2 := mkArray2 84 3 (fun _ _ => 0).
Definition tensor_short : Array2 := mkArray2 10 5 (fun _ _ => 0).

(** A camera for the examples: a pinhole model with focal length 600 and
    principal point (640, 360), a flat depth image of 2 m, and a square
    root that is rounded down to six decimals. *)
Definition demo_sqrt (q : Q) : Q :=
  inject_Z (Z.sqrt (Qnum q * 10 ^ 12 / Zpos (Qden q))) / inject_Z (10 ^ 6).

Definition demo_deproject (px py : Z) (depth : Q) : Q * Q * Q :=
  ((inject_Z px - 640) / 600 * depth, (inject_Z py - 360) / 600 * depth,
   depth).

Definition demo_depth (row col : Z) : Z := 2000.

(** Three candidates: the second overlaps the first (IoU about 0.54) and is
    0.1 m from it; the third is elsewhere. *)
Definition cand_boxes : list PersonBox :=
  [mkPersonBox 1 0 0 1000 400 2; mkPersonBox 2 300 0 1300 400 (21 # 10);
   mkPersonBox 3 20 500 120 700 4].

Definition cand_positions : list PersonPos :=
  [mkPersonPos 1 0 0 2; mkPersonPos 2 0 0 (21 # 10);
   mkPersonPos 3 (-2) 1 4].

(** *** Notions for the further properties of [compute_iou] and [nms] *)

(** A box with integer corners. *)
Definition integral_box (b : Box) : Prop :=
  integral (xmin b) /\ integral (ymin b)
  /\ integral (xmax b) /\ integral (ymax b).

(** The kept box [k] lets the later box [d] pass: their IoU is below the
    threshold. *)
Definition passes (t : Q) (k d : Det) : Prop :=
  exists v, compute_iou (box k) (box d) = Ok v /\ v < t.

(** *** Notions for the properties of the id assignment

    [clamp_px bound v] is [int(max(0, min(bound - 1, v)))], and
    [clamp_index bound c] is [max(0, min(c, bound - 1))].
    [located orig_w orig_h det pp pb] relates a detection to the entries
    that one round of the loop appends for it. *)
Definition clamp_px (bound : Z) (v : Q) : Z :=
  py_int (py_max 0 (py_min (inject_Z (bound - 1)) v)).

Definition clamp_index (bound c : Z) : Z := Z.max 0 (Z.min c (bound - 1)).

Definition located (orig_w orig_h : Z) (det : Det) (pp : PersonPos)
    (pb : PersonBox) : Prop :=
  pleft pb = clamp_px orig_w (xmin (box det))
  /\ ptop pb = clamp_px orig_h (ymin (box det))
  /\ pright pb = clamp_px orig_w (xmax (box det))
  /\ pbottom pb = clamp_px orig_h (ymax (box det))
  /\ pos_id pp = pid pb
  /\ exists cx cy,
       cx = clamp_index depth_cols
              (py_int (inject_Z (pleft pb + pright pb) / 2))
       /\ cy = clamp_index depth_rows
                 (py_int (inject_Z (ptop pb + pbottom pb) / 2))
       /\ depth_m pb = inject_Z (depth_image cy cx) * depth_scale
       /\ (pX pp, pY pp, pZ pp) = deproject cx cy (depth_m pb).

(** *** 6. Draw bounding boxes, 7. draw warning text, 9. FPS

    The drawing calls on the frame are modelled as the list of what is
    drawn.  A rectangle is [(corner, corner, color, thickness)], a label
    or a warning is its position and what it shows; colours are BGR. *)
Definition Color : Type := Z * Z * Z.

Definition box_color (close_pairs : list Alert) (pid : Z) : Color :=
  fold_left (fun (color : Color) '(id1, id2, _) =>
               if (pid =? id1)%Z || (pid =? id2)%Z then (0, 0, 255)%Z
               else color)
            close_pairs (0, 255, 0)%Z.

Record Drawn := mkDrawn {
  rect_from : Z * Z;
  rect_to : Z * Z;
  rect_color : Color;
  rect_thickness : Z;
  label_id : Z;
  label_depth : Q;
  label_at : Z * Z
}.

Definition draw_boxes (person_boxes : list PersonBox)
    (close_pairs : list Alert) : list Drawn :=
  fold_left (fun drawn pb =>
               let color := box_color close_pairs (pid pb) in
               drawn ++ [mkDrawn (pleft pb, ptop pb) (pright pb, pbottom pb)
                                 color 2 (pid pb) (depth_m pb)
                                 (pleft pb, (ptop pb - 10)%Z)])
            person_boxes [].

(** One round of [for (id1, id2, d) in close_pairs]: the text is put at
    [(50, y_offset)] and [y_offset] grows by 40. *)
Definition warning_body (st : list (Z * Z * Alert) * Z) (al : Alert)
  : list (Z * Z * Alert) * Z :=
  let '(texts, y_offset) := st in
  (texts ++ [(50%Z, y_offset, al)], (y_offset + 40)%Z).

Definition draw_warnings (close_pairs : list Alert) : list (Z * Z * Alert) :=
  fst (fold_left warning_body close_pairs ([], 80%Z)).

(** [fps = 1.0 / (curr_time - prev_time) if prev_time else 0.0], and the
    frames of a run: [prev_time] starts at 0.0 and becomes [curr_time]. *)
Definition fps_of (prev_time curr_time : Q) : result Q :=
  if Qeq_bool prev_time 0 then Ok 0 else py_div 1 (curr_time - prev_time).

Definition fps_frame (st : Q * list Q) (curr_time : Q)
  : result (Q * list Q) :=
  let '(prev_time, shown) := st in
  fps <- fps_of prev_time curr_time ;;
  Ok (curr_time, shown ++ [fps]).

Definition fps_run (times : list Q) : result (Q * list Q) :=
  for_each fps_frame times (0, []).

(** *** Concrete inputs for the further properties *)

(** A resize by nearest neighbour and a small frame whose pixel values
    depend on the channel only. *)
Definition demo_resize (img : Image) (size : Z * Z) : Image :=
  let '(w, h) := size in
  mkImage (Z.to_nat h) (Z.to_nat w) (img_chans img)
          (fun y x c =>
             img_px img (y * img_rows img / Z.to_nat h)
                        (x * img_cols img / Z.to_nat w) c).

Definition demo_frame : Image :=
  mkImage 2 2 3 (fun _ _ c => Z.min 255 (100 + 50 * Z.of_nat c)).

(** Two candidates far from each other, and two persons 0.5 m apart. *)
Definition far_boxes : list PersonBox :=
  [mkPersonBox 1 0 0 40 40 1; mkPersonBox 2 500 0 540 40 3].

Definition far_positions : list PersonPos :=
  [mkPersonPos 1 0 0 1; mkPersonPos 2 0 0 3].

Definition near_persons : list PersonBox :=
  [mkPersonBox 1 600 300 680 420 0; mkPersonBox 2 600 300 680 420 (1 # 2)].

(** ** Basic facts about the arithmetic *)

Lemma Qltb_lt a b : Qltb a b = true <-> a < b.
Proof.
  unfold Qltb. rewrite negb_true_iff, <- not_true_iff_false, Qle_bool_iff.
  split; [apply Qnot_le_lt | apply Qlt_not_le].
Qed.

Lemma Qltb_ge a b : Qltb a b = false <-> b <= a.
Proof.
  unfold Qltb. rewrite negb_false_iff. apply Qle_bool_iff.
Qed.

Lemma py_max_spec a b :
  (a < b /\ py_max a b = b) \/ (b <= a /\ py_max a b = a).
Proof.
  unfold py_max. destruct (Qltb a b) eqn:E.
  - left. split; [by apply Qltb_lt | done].
  - right. split; [by apply Qltb_ge | done].
Qed.

Lemma py_min_spec a b :
  (b < a /\ py_min a b = b) \/ (a <= b /\ py_min a b = a).
Proof.
  unfold py_min. destruct (Qltb b a) eqn:E.
  - left. split; [by apply Qltb_lt | done].
  - right. split; [by apply Qltb_ge | done].
Qed.

Lemma py_max_comm a b : py_max a b == py_max b a.
Proof.
  destruct (py_max_spec a b) as [[H ->]|[H ->]],
           (py_max_spec b a) as [[H' ->]|[H' ->]]; lra.
Qed.

Lemma py_min_comm a b : py_min a b == py_min b a.
Proof.
  destruct (py_min_spec a b) as [[H ->]|[H ->]],
           (py_min_spec b a) as [[H' ->]|[H' ->]]; lra.
Qed.

#[global] Instance py_max_proper : Proper (Qeq ==> Qeq ==> Qeq) py_max.
Proof.
  intros a a' Ha b b' Hb.
  destruct (py_max_spec a b) as [[H ->]|[H ->]],
           (py_max_spec a' b') as [[H' ->]|[H' ->]]; lra.
Qed.

#[global] Instance py_min_proper : Proper (Qeq ==> Qeq ==> Qeq) py_min.
Proof.
  intros a a' Ha b b' Hb.
  destruct (py_min_spec a b) as [[H ->]|[H ->]],
           (py_min_spec a' b') as [[H' ->]|[H' ->]]; lra.
Qed.

Lemma py_div_proper a a' b b' :
  a == a' -> b == b' -> result_eq (py_div a b) (py_div a' b').
Proof.
  intros Ha Hb. unfold py_div.
  destruct (Qeq_bool b 0) eqn:E, (Qeq_bool b' 0) eqn:E'; simpl.
  - done.
  - apply Qeq_bool_iff in E. apply Qeq_bool_neq in E'. lra.
  - apply Qeq_bool_iff in E'. apply Qeq_bool_neq in E. lra.
  - by rewrite Ha, Hb.
Qed.

Lemma py_div_ok a b : ~ b == 0 -> py_div a b = Ok (a / b).
Proof.
  intros H. unfold py_div. destruct (Qeq_bool b 0) eqn:E; [|done].
  by apply Qeq_bool_iff in E.
Qed.

(** ** IoU of a box with itself and symmetry *)

(** C9: [compute_iou a b] and [compute_iou b a] agree for all boxes: both
    return the same number, or both raise the same exception. *)
Theorem compute_iou_sym (a b : Box) :
  result_eq (compute_iou a b) (compute_iou b a).
Proof.
  unfold compute_iou. apply py_div_proper.
  - rewrite (py_max_comm (xmin a)), (py_max_comm (ymin a)),
      (py_min_comm (xmax a)), (py_min_comm (ymax a)). reflexivity.
  - rewrite (py_max_comm (xmin a)), (py_max_comm (ymin a)),
      (py_min_comm (xmax a)), (py_min_comm (ymax a)). ring.
Qed.

Lemma py_max_self a : py_max a a = a.
Proof. unfold py_max. by destruct (Qltb a a). Qed.

Lemma py_min_self a : py_min a a = a.
Proof. unfold py_min. by destruct (Qltb a a). Qed.

Lemma py_max_0_pos a : 0 < a -> py_max 0 a = a.
Proof. intros H. unfold py_max. apply Qltb_lt in H. by rewrite H. Qed.

(** C6, as the code has it: for a box of positive width and height,
    [compute_iou a a] returns [area / (area + 1e-6)], which is positive and
    strictly below 1. *)
Theorem compute_iou_self (a : Box) :
  xmin a < xmax a -> ymin a < ymax a ->
  exists v, compute_iou a a = Ok v /\
            v == area a / (area a + eps) /\ 0 < v /\ v < 1 /\
            1 - v == eps / (area a + eps).
Proof.
  intros Hx Hy.
  assert (Ha : 0 < area a) by (unfold area; nra).
  assert (He : 0 < eps) by reflexivity.
  exists (area a / (area a + area a - area a + eps)).
  split; [|split; [|split; [|split]]].
  - unfold compute_iou.
    rewrite !py_max_self, !py_min_self, !py_max_0_pos by lra.
    fold (area a). apply py_div_ok. lra.
  - assert (E : area a + area a - area a + eps == area a + eps) by ring.
    by rewrite E.
  - apply Qlt_shift_div_l; lra.
  - apply Qlt_shift_div_r; lra.
  - field. lra.
Qed.

Lemma compute_iou_self_witness :
  xmin box10 < xmax box10 /\ ymin box10 < ymax box10 /\
  exists v, compute_iou box10 box10 = Ok v /\
            v == area box10 / (area box10 + eps) /\ 0 < v /\ v < 1 /\
            1 - v == eps / (area box10 + eps).
Proof.
  split; [reflexivity|]. split; [reflexivity|].
  apply (compute_iou_self box10); reflexivity.
Defined.

(** The box [(0, 0, 10, 10)] has width and height 10, and its IoU with
    itself is [100 / 100.000001], not 1. *)
Lemma compute_iou_self_not_one :
  xmin box10 < xmax box10 /\ ymin box10 < ymax box10 /\
  exists v, compute_iou box10 box10 = Ok v /\ ~ v == 1.
Proof.
  split; [reflexivity|]. split; [reflexivity|].
  eexists. split; [reflexivity|]. intros H. vm_compute in H. discriminate.
Qed.

(** ** Loops and lists *)

Lemma map_fmap {A B} (f : A -> B) (l : list A) : map f l = f <$> l.
Proof.
  induction l as [|x l IH]; [done|]. rewrite fmap_cons, <- IH. done.
Qed.

Lemma lookup_map_seq {A} (f : nat -> A) (n i : nat) :
  (i < n)%nat -> map f (seq 0 n) !! i = Some (f i).
Proof.
  intros H. rewrite map_fmap, list_lookup_fmap, lookup_seq_lt by done. done.
Qed.

Lemma index_ok {A} (xs : list A) i x : xs !! i = Some x -> index xs i = Ok x.
Proof. unfold index. by intros ->. Qed.

Lemma for_each_app {A S} (body : S -> A -> result S) xs ys st :
  for_each body (xs ++ ys) st
  = bind (for_each body xs st) (for_each body ys).
Proof.
  revert st. induction xs as [|x xs IH]; intros st; simpl; [done|].
  destruct (body st x); simpl; [apply IH | done].
Qed.

(** ** The best class of an anchor *)

Lemma argmax_from_spec bi bv i vs :
  (argmax_from bi bv i vs = bi /\ max_from bv vs = bv
   /\ Forall (fun v => v <= bv) vs)
  \/ (exists j, argmax_from bi bv i vs = (i + j)%nat
        /\ vs !! j = Some (max_from bv vs) /\ bv < max_from bv vs
        /\ (forall j' v, (j' < j)%nat -> vs !! j' = Some v
                         -> v < max_from bv vs)
        /\ Forall (fun v => v <= max_from bv vs) vs).
Proof.
  revert bi bv i. induction vs as [|v vs IH]; intros bi bv i; simpl.
  { left. auto. }
  destruct (Qltb bv v) eqn:E.
  - apply Qltb_lt in E. right.
    destruct (IH i v (S i))
      as [(Hk & Hm & Hall)|(j & Hk & Hj & Hlt & Hpre & Hall)].
    + exists 0%nat. rewrite Hk, Hm. split_and!.
      * lia.
      * done.
      * done.
      * intros j' ? ?. lia.
      * constructor; [lra | done].
    + exists (S j). rewrite Hk. split_and!.
      * lia.
      * done.
      * lra.
      * intros [|j'] w Hj' Hw; simpl in Hw.
        -- injection Hw as <-. done.
        -- apply (Hpre j'); [lia | done].
      * constructor; [lra | done].
  - apply Qltb_ge in E.
    destruct (IH bi bv (S i))
      as [(Hk & Hm & Hall)|(j & Hk & Hj & Hlt & Hpre & Hall)].
    + left. split_and!; [done | done |]. constructor; [lra | done].
    + right. exists (S j). rewrite Hk. split_and!.
      * lia.
      * done.
      * done.
      * intros [|j'] w Hj' Hw; simpl in Hw.
        -- injection Hw as <-. lra.
        -- apply (Hpre j'); [lia | done].
      * constructor; [lra | done].
Qed.

(** On a non-empty sequence [argmax] is the first index of a greatest
    entry and [amax] is the entry there. *)
Lemma argmax_spec (vs : list Q) :
  vs <> [] ->
  vs !! argmax vs = Some (amax vs)
  /\ (forall j v, vs !! j = Some v -> v <= amax vs)
  /\ (forall j v, (j < argmax vs)%nat -> vs !! j = Some v -> v < amax vs).
Proof.
  destruct vs as [|v0 vs]; [done|]. intros _. simpl.
  destruct (argmax_from_spec 0 v0 1 vs)
    as [(Hk & Hm & Hall)|(j & Hk & Hj & Hlt & Hpre & Hall)].
  - rewrite Hk, Hm. split_and!; [done| |intros; lia].
    intros [|j] v Hv; simpl in Hv.
    + injection Hv as <-. lra.
    + rewrite Forall_lookup in Hall. by apply (Hall j).
  - rewrite Hk. simpl. split_and!; [done| |].
    + intros [|j'] v Hv; simpl in Hv.
      * injection Hv as <-. lra.
      * rewrite Forall_lookup in Hall. by apply (Hall j').
    + intros [|j'] v Hj' Hv; simpl in Hv.
      * injection Hv as <-. done.
      * apply (Hpre j'); [lia | done].
Qed.

(** The scores of anchor [a]: the row [a] of [out[4:, :].T]. *)
Lemma scores_row (out : Array2) (a c : nat) :
  (c < shape0 out - 4)%nat ->
  row (transpose (rows_from out 4)) a !! c = Some (at2 out (4 + c) a).
Proof.
  intros H. unfold row. simpl. by rewrite lookup_map_seq.
Qed.

Lemma scores_row_length (out : Array2) (a : nat) :
  length (row (transpose (rows_from out 4)) a) = (shape0 out - 4)%nat.
Proof. unfold row. simpl. by rewrite length_map, length_seq. Qed.

(** What the decoder computes for anchor [a] of a tensor with 84
    attributes. *)
Lemma anchor_class (out : Array2) (conf_thres : Q) (a : nat) :
  shape0 out = 84%nat -> (a < shape1 out)%nat ->
  let scores := transpose (rows_from out 4) in
  let cls_ids := argmax_axis1 scores in
  let cls_scores := max_axis1 scores in
  exists k,
    cls_ids !! a = Some k /\ (k < 80)%nat
    /\ cls_scores !! a = Some (at2 out (4 + k) a)
    /\ person_mask cls_ids cls_scores conf_thres !! a
       = Some ((k =? PERSON_CLASS_ID)%nat
               && Qltb conf_thres (at2 out (4 + k) a))
    /\ (forall c, (c < 80)%nat -> at2 out (4 + c) a <= at2 out (4 + k) a)
    /\ (forall c, (c < k)%nat -> at2 out (4 + c) a < at2 out (4 + k) a).
Proof.
  intros Hs Ha scores cls_ids cls_scores.
  set (r := row scores a).
  assert (Hlen : length r = 80%nat).
  { unfold r, scores. rewrite scores_row_length, Hs. done. }
  assert (Hne : r <> []) by (intros E; rewrite E in Hlen; discriminate).
  destruct (argmax_spec r Hne) as (Hk & Hall & Hpre).
  assert (Hk80 : (argmax r < 80)%nat).
  { rewrite <- Hlen. apply lookup_lt_is_Some. eauto. }
  assert (Hrow : forall c, (c < 80)%nat -> r !! c = Some (at2 out (4 + c) a)).
  { intros c Hc. apply scores_row. lia. }
  assert (Hm : amax r = at2 out (4 + argmax r) a).
  { rewrite (Hrow _ Hk80) in Hk. by injection Hk. }
  assert (Hid : cls_ids !! a = Some (argmax r)).
  { unfold cls_ids, argmax_axis1. by rewrite lookup_map_seq. }
  assert (Hsc : cls_scores !! a = Some (at2 out (4 + argmax r) a)).
  { unfold cls_scores, max_axis1. rewrite lookup_map_seq by done.
    fold r. by rewrite Hm. }
  exists (argmax r). split_and!; [done | done | done | | |].
  - unfold person_mask. rewrite lookup_zip_with, !map_fmap, !list_lookup_fmap.
    fold cls_ids cls_scores. rewrite Hid, Hsc. done.
  - intros c Hc. rewrite <- Hm. apply (Hall c). auto.
  - intros c Hc. rewrite <- Hm. apply (Hpre c); [done|]. apply Hrow. lia.
Qed.

(** C10: the best class of an anchor is the lowest index among the classes
    of greatest score, so an anchor whose person score (class 0) is a
    greatest score is classified as person, and it passes the filter
    exactly when that score exceeds the threshold. *)
Theorem argmax_tie_break (out : Array2) (conf_thres : Q) (a : nat) :
  shape0 out = 84%nat -> (a < shape1 out)%nat ->
  let scores := transpose (rows_from out 4) in
  let cls_ids := argmax_axis1 scores in
  let cls_scores := max_axis1 scores in
  (exists k, cls_ids !! a = Some k /\ (k < 80)%nat
     /\ (forall c, (c < 80)%nat -> at2 out (4 + c) a <= at2 out (4 + k) a)
     /\ (forall c, (c < k)%nat -> at2 out (4 + c) a < at2 out (4 + k) a))
  /\ ((forall c, (c < 80)%nat -> at2 out (4 + c) a <= at2 out 4 a) ->
      cls_ids !! a = Some PERSON_CLASS_ID
      /\ person_mask cls_ids cls_scores conf_thres !! a
         = Some (Qltb conf_thres (at2 out 4 a))).
Proof.
  intros Hs Ha scores cls_ids cls_scores.
  destruct (anchor_class out conf_thres a Hs Ha)
    as (k & Hid & Hk & Hsc & Hmask & Hall & Hpre).
  fold scores in Hid, Hsc, Hmask. fold cls_ids in Hid, Hmask.
  fold cls_scores in Hsc, Hmask.
  split; [exists k; auto|].
  intros Hperson.
  assert (k = 0)%nat as ->.
  { destruct k as [|k]; [done|]. exfalso.
    pose proof (Hpre 0%nat ltac:(lia)) as H1.
    pose proof (Hperson (S k) Hk) as H2. rewrite Nat.add_0_r in H1. lra. }
  rewrite Nat.add_0_r in Hmask. split; [done|]. rewrite Hmask. done.
Qed.

(** ** Greedy NMS *)

Lemma compute_iou_raise a b e :
  compute_iou a b = Raise e -> e = ZeroDivisionError.
Proof.
  unfold compute_iou, py_div. destruct (Qeq_bool _ 0); congruence.
Qed.

Lemma nms_loop_cons t best dets keep :
  nms_loop t (best :: dets) keep
  = match suppress best t dets with
    | Ok new_dets => nms_loop t new_dets (keep ++ [best])
    | Raise e => Raise e
    end.
Proof.
  simp nms_loop. generalize (inspect (suppress best t dets)).
  intros [r Hr]. destruct r; simp nms_loop; by rewrite Hr.
Qed.

(** The loop that appends to [new_dets] computes [remove_overlapping]. *)
Lemma suppress_body_eq best t dets acc :
  for_each (suppress_body best t) dets acc
  = (r <- remove_overlapping best t dets ;; Ok (acc ++ r)).
Proof.
  revert acc. induction dets as [|d dets IH]; intros acc; simpl.
  { by rewrite app_nil_r. }
  unfold suppress_body at 1.
  destruct (compute_iou (box best) (box d)) as [v|e]; simpl; [|done].
  rewrite IH. destruct (remove_overlapping best t dets) as [r|e]; simpl;
    [|done].
  destruct (Qltb v t); [by rewrite <- app_assoc | done].
Qed.

Lemma suppress_eq best t dets :
  suppress best t dets = remove_overlapping best t dets.
Proof.
  unfold suppress. rewrite suppress_body_eq.
  by destruct (remove_overlapping best t dets).
Qed.

(** [remove_overlapping] is a filter when no IoU raises. *)
Lemma remove_overlapping_filter best t l :
  remove_overlapping best t l
  = if forallb (iou_defined best) l then Ok (List.filter (below best t) l)
    else Raise ZeroDivisionError.
Proof.
  induction l as [|d l IH]; simpl; [done|].
  unfold iou_defined at 1, below at 1.
  destruct (compute_iou (box best) (box d)) as [v|e] eqn:E; simpl.
  - rewrite IH. destruct (forallb (iou_defined best) l); simpl; [|done].
    by destruct (Qltb v t).
  - by rewrite (compute_iou_raise _ _ _ E).
Qed.

(** Sorting: [sorted_desc] is descending, and commutes with [forallb] and
    with filters. *)
Lemma insert_desc_head d l :
  Forall (fun e => score e <= score d) l -> insert_desc d l = d :: l.
Proof.
  destruct l as [|e l]; [done|]. intros H. simpl.
  apply Forall_cons_1 in H as [H _].
  apply Qltb_ge in H. by rewrite H.
Qed.

Lemma insert_desc_Forall (P : Det -> Prop) d l :
  P d -> Forall P l -> Forall P (insert_desc d l).
Proof.
  intros Hd. induction 1 as [|e l He Hl IH]; simpl.
  - by constructor.
  - destruct (Qltb (score d) (score e)); repeat constructor; auto.
Qed.

Lemma insert_desc_descending d l :
  descending l -> descending (insert_desc d l).
Proof.
  unfold descending. induction 1 as [|e l Hl IH He]; simpl.
  - repeat constructor.
  - destruct (Qltb (score d) (score e)) eqn:E.
    + apply Qltb_lt in E. constructor; [done|].
      apply insert_desc_Forall; [lra | done].
    + apply Qltb_ge in E. constructor; [by constructor|].
      constructor; [done|]. eapply Forall_impl; [exact He|].
      simpl. intros x Hx. lra.
Qed.

Lemma sorted_desc_descending l : descending (sorted_desc l).
Proof.
  induction l as [|d l IH]; simpl.
  - constructor.
  - by apply insert_desc_descending.
Qed.

Lemma forallb_insert_desc (p : Det -> bool) d l :
  forallb p (insert_desc d l) = p d && forallb p l.
Proof.
  induction l as [|e l IH]; simpl; [done|].
  destruct (Qltb (score d) (score e)); simpl; [|done].
  rewrite IH. by destruct (p d), (p e).
Qed.

Lemma forallb_sorted_desc (p : Det -> bool) l :
  forallb p (sorted_desc l) = forallb p l.
Proof.
  induction l as [|d l IH]; simpl; [done|].
  by rewrite forallb_insert_desc, IH.
Qed.

Lemma filter_descending (p : Det -> bool) l :
  descending l -> descending (List.filter p l).
Proof.
  unfold descending. induction 1 as [|e l Hl IH He]; simpl; [constructor|].
  destruct (p e); [|done]. constructor; [done|].
  rewrite List.Forall_forall in He |- *. intros x Hx.
  apply List.filter_In in Hx as [Hx _]. by apply He.
Qed.

Lemma filter_insert_desc (p : Det -> bool) d l :
  descending l ->
  List.filter p (insert_desc d l)
  = if p d then insert_desc d (List.filter p l) else List.filter p l.
Proof.
  unfold descending. induction 1 as [|e l Hl IH He]; simpl.
  { by destruct (p d). }
  destruct (Qltb (score d) (score e)) eqn:E; simpl.
  - rewrite IH. destruct (p d), (p e); simpl; try done. by rewrite E.
  - destruct (p d) eqn:Hd; [|done].
    destruct (p e); simpl; [by rewrite E|].
    symmetry. apply insert_desc_head. apply Qltb_ge in E.
    rewrite List.Forall_forall in He |- *. intros x Hx.
    apply List.filter_In in Hx as [Hx _]. apply He in Hx. lra.
Qed.

Lemma filter_sorted_desc (p : Det -> bool) l :
  List.filter p (sorted_desc l) = sorted_desc (List.filter p l).
Proof.
  induction l as [|d l IH]; simpl; [done|].
  rewrite filter_insert_desc by apply sorted_desc_descending.
  rewrite IH. by destruct (p d).
Qed.

Lemma remove_overlapping_sorted best t l :
  remove_overlapping best t (sorted_desc l)
  = (r <- remove_overlapping best t l ;; Ok (sorted_desc r)).
Proof.
  rewrite !remove_overlapping_filter, forallb_sorted_desc.
  destruct (forallb (iou_defined best) l); simpl; [|done].
  by rewrite filter_sorted_desc.
Qed.

Lemma remove_overlapping_length best t l r :
  remove_overlapping best t l = Ok r -> (length r <= length l)%nat.
Proof.
  rewrite remove_overlapping_filter.
  destruct (forallb (iou_defined best) l); [|done].
  intros [= <-]. apply List.filter_length_le.
Qed.


(** Selection: the head of the sorted list is the first box of highest
    score, and the tail is the sorted list of the others. *)
Lemma sorted_desc_select d rest :
  sorted_desc (d :: rest)
  = fst (select_best d rest) :: sorted_desc (snd (select_best d rest)).
Proof.
  revert d. induction rest as [|e rest IH]; intros d; [done|].
  change (sorted_desc (d :: e :: rest))
    with (insert_desc d (sorted_desc (e :: rest))).
  rewrite IH. simpl. destruct (select_best e rest) as [m r] eqn:Es. simpl.
  destruct (Qltb (score d) (score m)); simpl; [done|].
  f_equal. specialize (IH e). rewrite Es in IH. simpl in IH. by rewrite <- IH.
Qed.

Lemma select_best_split d rest :
  exists before after,
    d :: rest = before ++ fst (select_best d rest) :: after
    /\ snd (select_best d rest) = before ++ after
    /\ Forall (fun x => score x < score (fst (select_best d rest))) before
    /\ Forall (fun x => score x <= score (fst (select_best d rest))) after.
Proof.
  revert d. induction rest as [|e rest IH]; intros d; simpl.
  { exists [], []. split_and!; done. }
  destruct (IH e) as (before & after & Hl & Ho & Hb & Ha).
  destruct (select_best e rest) as [m r]. simpl in *.
  destruct (Qltb (score d) (score m)) eqn:E; simpl.
  - apply Qltb_lt in E. exists (d :: before), after.
    split_and!; [by rewrite Hl | by rewrite Ho | by constructor | done].
  - apply Qltb_ge in E. exists [], (e :: rest).
    split_and!; [done | done | done |].
    rewrite Hl. apply Forall_app. split.
    + eapply Forall_impl; [exact Hb|]. simpl. intros x Hx. lra.
    + constructor; [done|].
      eapply Forall_impl; [exact Ha|]. simpl. intros x Hx. lra.
Qed.

Lemma select_best_first before best after d rest :
  d :: rest = before ++ best :: after ->
  Forall (fun x => score x < score best) before ->
  Forall (fun x => score x <= score best) after ->
  select_best d rest = (best, before ++ after).
Proof.
  revert d rest. induction before as [|b before IH]; intros d rest Hl Hb Ha.
  - simpl in *. injection Hl as -> ->.
    destruct after as [|e after]; [done|]. simpl.
    destruct (select_best_split e after) as (l1 & l2 & Hl & _ & _ & _).
    destruct (select_best e after) as [m r]. simpl in *.
    assert (Hm : score m <= score best).
    { rewrite Forall_forall in Ha. apply Ha. rewrite Hl.
      apply elem_of_app. right. left. }
    apply Qltb_ge in Hm. by rewrite Hm.
  - simpl in Hl. injection Hl as -> ->.
    apply Forall_cons_1 in Hb as [Hb1 Hb].
    destruct (before ++ best :: after) as [|e rest'] eqn:E.
    { by destruct before. }
    simpl. rewrite (IH e rest' eq_refl Hb Ha).
    apply Qltb_lt in Hb1. by rewrite Hb1.
Qed.

Lemma nms_loop_acc t l keep :
  nms_loop t l keep = (r <- nms_loop t l [] ;; Ok (keep ++ r)).
Proof.
  remember (length l) as n eqn:Hn. revert l keep Hn.
  induction n as [n IH] using lt_wf_ind. intros l keep Hn.
  destruct l as [|best l].
  { simp nms_loop. simpl. by rewrite app_nil_r. }
  rewrite !nms_loop_cons. rewrite suppress_eq.
  destruct (remove_overlapping best t l) as [new|e] eqn:E; [|done].
  apply remove_overlapping_length in E. simpl in Hn.
  rewrite (IH (length new) ltac:(lia) new (keep ++ [best]) eq_refl).
  rewrite (IH (length new) ltac:(lia) new ([] ++ [best]) eq_refl).
  destruct (nms_loop t new []) as [r|e]; simpl; [|done].
  by rewrite <- app_assoc.
Qed.

Lemma nms_eq_loop dets t : nms dets t = nms_loop t (sorted_desc dets) [].
Proof.
  unfold nms. destruct dets as [|d dets]; simpl; [|done]. by simp nms_loop.
Qed.

Lemma nms_step t d rest :
  nms (d :: rest) t
  = (remaining <- remove_overlapping (fst (select_best d rest)) t
                    (snd (select_best d rest)) ;;
     kept <- nms remaining t ;;
     Ok (fst (select_best d rest) :: kept)).
Proof.
  rewrite nms_eq_loop, sorted_desc_select, nms_loop_cons, suppress_eq.
  rewrite remove_overlapping_sorted.
  destruct (remove_overlapping _ t _) as [remaining|e]; simpl; [|done].
  by rewrite nms_loop_acc, nms_eq_loop.
Qed.

Lemma nms_greedy_aux t n :
  forall dets keep, (length dets <= n)%nat ->
    nms dets t = Ok keep -> greedy t dets keep.
Proof.
  induction n as [|n IH]; intros dets keep Hn H.
  - destruct dets; [|simpl in Hn; lia].
    injection H as <-. constructor.
  - destruct dets as [|d rest].
    { injection H as <-. constructor. }
    rewrite nms_step in H.
    destruct (select_best_split d rest) as (before & after & Hl & Ho & Hb & Ha).
    destruct (select_best d rest) as [best others]. simpl in *.
    destruct (remove_overlapping best t others) as [remaining|e] eqn:E;
      [|done].
    simpl in H.
    destruct (nms remaining t) as [kept|e] eqn:E'; [|done].
    injection H as <-. rewrite Hl. subst others.
    apply greedy_step with remaining; auto.
    apply IH; [|done].
    apply remove_overlapping_length in E.
    assert (length (d :: rest) = length (before ++ best :: after))
      by (by rewrite Hl).
    rewrite length_app in E, H. simpl in *. lia.
Qed.

(** On well-formed boxes the intersection is at most the area of the first
    box, so the denominator is at least [1e-6] and the IoU is defined. *)
Lemma compute_iou_defined a b :
  well_formed a -> well_formed b ->
  exists v, compute_iou a b = Ok v /\ 0 <= v.
Proof.
  intros [Hax Hay] [Hbx Hby]. unfold compute_iou.
  set (iw := py_max 0 (py_min (xmax a) (xmax b) - py_max (xmin a) (xmin b))).
  set (ih := py_max 0 (py_min (ymax a) (ymax b) - py_max (ymin a) (ymin b))).
  assert (Hw : 0 <= iw /\ iw <= xmax a - xmin a).
  { unfold iw.
    destruct (py_min_spec (xmax a) (xmax b)) as [[? ->]|[? ->]],
             (py_max_spec (xmin a) (xmin b)) as [[? ->]|[? ->]],
             (py_max_spec 0 (xmax a - xmin a)) as [[? E]|[? E]];
      match goal with
      | |- context [py_max 0 ?x] =>
          destruct (py_max_spec 0 x) as [[? ->]|[? ->]]
      end; lra. }
  assert (Hh : 0 <= ih /\ ih <= ymax a - ymin a).
  { unfold ih.
    destruct (py_min_spec (ymax a) (ymax b)) as [[? ->]|[? ->]],
             (py_max_spec (ymin a) (ymin b)) as [[? ->]|[? ->]],
             (py_max_spec 0 (ymax a - ymin a)) as [[? E]|[? E]];
      match goal with
      | |- context [py_max 0 ?x] =>
          destruct (py_max_spec 0 x) as [[? ->]|[? ->]]
      end; lra. }
  assert (He : 0 < eps) by reflexivity.
  assert (Hb : 0 <= (xmax b - xmin b) * (ymax b - ymin b)) by nra.
  assert (Hi : 0 <= iw * ih) by nra.
  assert (Hle : iw * ih <= (xmax a - xmin a) * (ymax a - ymin a)) by nra.
  eexists. split.
  - apply py_div_ok. lra.
  - apply Qle_shift_div_l; lra.
Qed.

Lemma nms_total_aux t n :
  forall dets, (length dets <= n)%nat ->
    Forall (fun d => well_formed (box d)) dets ->
    exists keep, nms dets t = Ok keep.
Proof.
  induction n as [|n IH]; intros dets Hn Hwf.
  { destruct dets; [by exists [] | simpl in Hn; lia]. }
  destruct dets as [|d rest]; [by exists []|].
  rewrite nms_step.
  destruct (select_best_split d rest) as (before & after & Hl & Ho & _ & _).
  destruct (select_best d rest) as [best others]. simpl in Hl, Ho |- *.
  rewrite Hl in Hwf. apply Forall_app in Hwf as [Hwb Hwa].
  apply Forall_cons_1 in Hwa as [Hbest Hwa].
  assert (Hothers : Forall (fun d => well_formed (box d)) others).
  { rewrite Ho. by apply Forall_app. }
  rewrite remove_overlapping_filter.
  assert (forallb (iou_defined best) others = true) as ->.
  { apply forallb_forall. intros x Hx. rewrite Forall_forall in Hothers.
    apply list_elem_of_In, Hothers in Hx. unfold iou_defined.
    by destruct (compute_iou_defined (box best) (box x) Hbest Hx) as (v & -> & _). }
  simpl.
  destruct (IH (List.filter (below best t) others)) as [kept ->].
  - pose proof (List.filter_length_le (below best t) others) as Hf.
    assert (Hlen : length (d :: rest) = length (before ++ best :: after))
      by (by rewrite Hl).
    rewrite Ho in Hf at 2. rewrite length_app in Hf, Hlen.
    simpl in Hn, Hlen. lia.
  - rewrite List.Forall_forall. intros x Hx.
    apply List.filter_In in Hx as [Hx _]. rewrite Forall_forall in Hothers.
    by apply Hothers, list_elem_of_In.
  - by eexists.
Qed.

(** C2, as the code has it: [nms] returns [keep] exactly when [keep] is the
    list of greedy selections: each round selects the first box of highest
    score among the remaining ones and removes from the others every box
    whose IoU with it is greater than or equal to the threshold (a box is
    kept for further rounds only if its IoU is strictly below it).  On
    well-formed boxes [nms] returns such a list. *)
Theorem nms_greedy (dets : list Det) (t : Q) :
  (forall keep, nms dets t = Ok keep <-> greedy t dets keep)
  /\ (Forall (fun d => well_formed (box d)) dets ->
      exists keep, nms dets t = Ok keep).
Proof.
  split; [|apply (nms_total_aux t (length dets)); done].
  intros keep. split.
  - apply (nms_greedy_aux t (length dets)). done.
  - induction 1 as [|before best after remaining kept Hb Ha Hr Hg IH].
    + done.
    + destruct (before ++ best :: after) as [|d rest] eqn:E.
      { by destruct before. }
      rewrite nms_step.
      rewrite (select_best_first before best after d rest (eq_sym E) Hb Ha).
      simpl. rewrite Hr. simpl. rewrite IH. done.
Qed.


(** With threshold 0 the disjoint boxes [detA] and [detC] have an IoU equal
    to the threshold, not above it, and [nms] removes [detC]. *)
Lemma nms_drops_equal_iou :
  exists v, compute_iou (box detA) (box detC) = Ok v
            /\ v == 0 /\ ~ 0 < v
            /\ nms [detA; detC] 0 = Ok [detA].
Proof.
  eexists. split; [reflexivity|]. split; [reflexivity|].
  split; [|reflexivity]. intros H. vm_compute in H. discriminate.
Qed.

(** The example of the specification: of three boxes the second overlaps
    the first and is dropped. *)
Example nms_three_boxes : nms [detA; detB; detC] IOU_THRESH = Ok [detA; detC].
Proof. reflexivity. Qed.

Example nms_single : nms [detB] IOU_THRESH = Ok [detB].
Proof. reflexivity. Qed.

(** ** The decoder *)

Lemma select_map {A B} (f : A -> B) mask (l : list A) :
  select mask (map f l) = map f (select mask l).
Proof.
  revert l. induction mask as [|m mask IH]; intros [|x l]; simpl; try done.
  destruct m; simpl; by rewrite IH.
Qed.

Lemma select_seq_filter (p : nat -> bool) mask s n :
  length mask = n ->
  (forall i, (i < n)%nat -> mask !! i = Some (p (s + i)%nat)) ->
  select mask (seq s n) = List.filter p (seq s n).
Proof.
  revert s n. induction mask as [|m mask IH]; intros s n Hn Hm.
  { simpl in Hn. by subst n. }
  destruct n as [|n]; [done|]. simpl in Hn. simpl.
  pose proof (Hm 0%nat ltac:(lia)) as H0. simpl in H0.
  rewrite Nat.add_0_r in H0. injection H0 as ->.
  rewrite (IH (S s) n); [done | lia |].
  intros i Hi. specialize (Hm (S i) ltac:(lia)). simpl in Hm.
  rewrite Hm. f_equal. f_equal. lia.
Qed.

Lemma existsb_select {A} mask (l : list A) :
  length l = length mask ->
  existsb (fun m => m) mask
  = match select mask l with [] => false | _ => true end.
Proof.
  revert l. induction mask as [|m mask IH]; intros [|x l] Hl; simpl in *;
    try done.
  destruct m; simpl; [done|]. apply IH. lia.
Qed.

Lemma map_nth_seq {A B} (f : A -> B) (l : list A) (d : A) :
  map (fun i => f (nth i l d)) (seq 0 (length l)) = map f l.
Proof.
  induction l as [|x l IH]; simpl; [done|].
  f_equal. rewrite <- seq_shift, List.map_map. exact IH.
Qed.

Lemma zip_with_map {A B C D} (g : B -> C -> D) (f1 : A -> B) (f2 : A -> C) l :
  zip_with g (map f1 l) (map f2 l) = map (fun a => g (f1 a) (f2 a)) l.
Proof. induction l as [|x l IH]; simpl; [done|]. by rewrite IH. Qed.

Lemma lookup_map_Some {A B} (f : A -> B) (l : list A) i x :
  l !! i = Some x -> map f l !! i = Some (f x).
Proof. intros H. by rewrite map_fmap, list_lookup_fmap, H. Qed.

(** The loop that builds [dets] from the five coordinate arrays. *)
Lemma collect_loop {A} (f1 f2 f3 f4 f5 : A -> Q) (l : list A) n acc :
  (n <= length l)%nat ->
  for_each (collect_body (map f1 l) (map f2 l) (map f3 l) (map f4 l)
                         (map f5 l)) (seq 0 n) acc
  = Ok (acc ++ map (fun a => mkDet (mkBox (f1 a) (f2 a) (f3 a) (f4 a)) (f5 a))
                   (take n l)).
Proof.
  induction n as [|n IH]; intros Hn.
  { simpl. by rewrite app_nil_r. }
  rewrite seq_S, for_each_app, IH by lia. simpl.
  destruct (lookup_lt_is_Some_2 l n ltac:(lia)) as [x Hx].
  unfold collect_body.
  rewrite !(index_ok _ n _ (lookup_map_Some _ l n x Hx)). simpl.
  rewrite (take_S_r l n x Hx), List.map_app, <- app_assoc. done.
Qed.


Lemma person_best_spec out a :
  person_best out a = true
  <-> forall c, (c < 80)%nat -> at2 out (4 + c) a <= at2 out 4 a.
Proof.
  unfold person_best. rewrite forallb_forall. split.
  - intros H c Hc. apply Qle_bool_iff, H, in_seq. lia.
  - intros H c Hc. apply in_seq in Hc. apply Qle_bool_iff, H. lia.
Qed.

(** The mask of the decoder is the filter of the specification. *)
Lemma mask_survives (out : Array2) (conf_thres : Q) (a : nat) :
  shape0 out = 84%nat -> (a < shape1 out)%nat ->
  let scores := transpose (rows_from out 4) in
  person_mask (argmax_axis1 scores) (max_axis1 scores) conf_thres !! a
  = Some (survives out conf_thres a)
  /\ (survives out conf_thres a = true ->
      amax (row scores a) = at2 out 4 a).
Proof.
  intros Hs Ha scores.
  destruct (anchor_class out conf_thres a Hs Ha)
    as (k & Hid & Hk & Hsc & Hmask & Hall & Hpre).
  fold scores in Hid, Hsc, Hmask.
  assert (Hamax : amax (row scores a) = at2 out (4 + k) a).
  { unfold max_axis1 in Hsc. rewrite lookup_map_seq in Hsc by done.
    by injection Hsc. }
  unfold survives. destruct k as [|k].
  - rewrite Nat.add_0_r in Hamax, Hmask, Hall.
    assert (person_best out a = true) as ->.
    { apply person_best_spec. intros c Hc. by apply Hall. }
    split; [by rewrite Hmask | done].
  - assert (person_best out a = false) as ->.
    { apply not_true_iff_false. rewrite person_best_spec. intros H.
      specialize (H (S k) Hk). specialize (Hpre 0%nat ltac:(lia)).
      rewrite Nat.add_0_r in Hpre. lra. }
    split; [by rewrite Hmask | done].
Qed.

Lemma person_mask_length (out : Array2) (conf_thres : Q) :
  let scores := transpose (rows_from out 4) in
  length (person_mask (argmax_axis1 scores) (max_axis1 scores) conf_thres)
  = shape1 out.
Proof.
  simpl. unfold person_mask, argmax_axis1, max_axis1. simpl.
  rewrite length_zip_with, !length_map, length_seq. lia.
Qed.

(** Before [nms], the decoder has one detection for each surviving anchor,
    in ascending anchor order, with the box of the specification. *)
Lemma decode_candidates_spec (out : Array2) (orig_w orig_h : Z) (conf_thres : Q) :
  shape0 out = 84%nat ->
  decode_candidates out orig_w orig_h conf_thres
  = match List.filter (survives out conf_thres) (seq 0 (shape1 out)) with
    | [] => None
    | a :: anchors =>
        Some (Ok (map (anchor_det out orig_w orig_h) (a :: anchors)))
    end.
Proof.
  intros Hs. unfold decode_candidates. rewrite Hs. simpl negb. cbv iota.
  set (scores := transpose (rows_from out 4)).
  set (mask := person_mask (argmax_axis1 scores) (max_axis1 scores) conf_thres).
  assert (Hlen : length mask = shape1 out) by apply person_mask_length.
  assert (Hsel : select mask (seq 0 (shape1 out))
                 = List.filter (survives out conf_thres) (seq 0 (shape1 out))).
  { apply select_seq_filter; [done|]. intros i Hi.
    by apply mask_survives. }
  rewrite (existsb_select mask (seq 0 (shape1 out)))
    by (by rewrite length_seq).
  rewrite Hsel.
  destruct (List.filter (survives out conf_thres) (seq 0 (shape1 out)))
    as [|a0 A'] eqn:EA; [done|].
  rewrite <- EA in Hsel |- *.
  set (A := List.filter (survives out conf_thres) (seq 0 (shape1 out))) in *.
  simpl negb. cbv iota. f_equal. cbv zeta.
  assert (Hcol : forall j,
    column (select_rows (transpose (rows_between out 0 4)) mask) j
    = map (fun a => at2 out j a) A).
  { intros j. unfold column, select_rows. simpl. rewrite Hsel.
    apply (map_nth_seq (fun a => at2 out j a)). }
  assert (Hsc : select mask (max_axis1 scores) = map (fun a => at2 out 4 a) A).
  { unfold max_axis1. rewrite select_map. simpl. rewrite Hsel.
    apply List.map_ext_in. intros a Ha. unfold A in Ha.
    apply List.filter_In in Ha as [Ha Hsurv]. apply in_seq in Ha.
    by apply (mask_survives out conf_thres a Hs ltac:(lia)). }
  rewrite !Hcol, Hsc, !List.map_map, !zip_with_map, !List.map_map.
  rewrite length_map, collect_loop by done.
  rewrite firstn_all. done.
Qed.

Lemma survives_spec out conf_thres a :
  survives out conf_thres a = true
  <-> (forall c, (c < 80)%nat -> at2 out (4 + c) a <= at2 out 4 a)
      /\ conf_thres < at2 out 4 a.
Proof.
  unfold survives. by rewrite andb_true_iff, person_best_spec, Qltb_lt.
Qed.

Lemma greedy_subset t dets keep :
  greedy t dets keep -> forall d, d ∈ keep -> d ∈ dets.
Proof.
  induction 1 as [|before best after remaining kept Hb Ha Hr Hg IH];
    intros d Hd; [done|].
  apply elem_of_cons in Hd as [->|Hd].
  - apply elem_of_app. right. left.
  - apply IH in Hd. rewrite remove_overlapping_filter in Hr.
    destruct (forallb _ _); [|done]. injection Hr as <-.
    apply list_elem_of_In, List.filter_In in Hd as [Hd _].
    apply list_elem_of_In, elem_of_app in Hd as [Hd|Hd].
    + apply elem_of_app. by left.
    + apply elem_of_app. right. by right.
Qed.


(** C4: on a tensor whose number of attributes is not 84 the decoder
    returns the empty list; it does not raise. *)
Theorem decode_malformed (output : list Array2) (out : Array2)
    (orig_w orig_h : Z) (conf_thres : Q) :
  output !! 0%nat = Some out -> shape0 out <> 84%nat ->
  decode_yolov11_persons output orig_w orig_h conf_thres = Ok [].
Proof.
  intros Hout Hs. unfold decode_yolov11_persons.
  rewrite (index_ok _ _ _ Hout). simpl. unfold decode_candidates.
  apply Nat.eqb_neq in Hs. by rewrite Hs.
Qed.

Lemma decode_malformed_witness :
  [tensor_short] !! 0%nat = Some tensor_short
  /\ shape0 tensor_short <> 84%nat
  /\ decode_yolov11_persons [tensor_short] 1280 720 CONF_THRESH = Ok [].
Proof.
  split; [reflexivity|]. split; [discriminate|].
  apply (decode_malformed [tensor_short] tensor_short);
    [reflexivity | discriminate].
Defined.

(** C5: the candidates handed to [nms] are the surviving anchors in anchor
    order, each with the box
    [((cx - w/2) sx, (cy - h/2) sy, (cx + w/2) sx, (cy + h/2) sy)], where
    [sx = orig_w / INPUT_W] and [sy = orig_h / INPUT_H], and its person
    score; every detection that the decoder returns is one of them. *)
Theorem decode_box_transform (output : list Array2) (out : Array2)
    (orig_w orig_h : Z) (conf_thres : Q) :
  output !! 0%nat = Some out -> shape0 out = 84%nat ->
  let anchors := List.filter (survives out conf_thres) (seq 0 (shape1 out)) in
  (forall a, a ∈ anchors <->
     (a < shape1 out)%nat
     /\ (forall c, (c < 80)%nat -> at2 out (4 + c) a <= at2 out 4 a)
     /\ conf_thres < at2 out 4 a)
  /\ (anchors <> [] ->
      decode_candidates out orig_w orig_h conf_thres
      = Some (Ok (map (fun a => mkDet (xyxy out orig_w orig_h a) (at2 out 4 a))
                      anchors)))
  /\ (forall dets d,
        decode_yolov11_persons output orig_w orig_h conf_thres = Ok dets ->
        d ∈ dets ->
        exists a, a ∈ anchors /\ box d = xyxy out orig_w orig_h a
                  /\ score d = at2 out 4 a).
Proof.
  forget_frame. intros Hout Hs anchors.
  pose proof (decode_candidates_spec out orig_w orig_h conf_thres Hs) as Hc.
  fold anchors in Hc. split_and!.
  - intros a. unfold anchors.
    rewrite list_elem_of_In, List.filter_In, in_seq, survives_spec. simpl.
    intuition lia.
  - intros Hne. rewrite Hc. by destruct anchors.
  - intros dets d Hd Hin. unfold decode_yolov11_persons in Hd.
    rewrite (index_ok _ _ _ Hout) in Hd. simpl in Hd. rewrite Hc in Hd.
    destruct anchors as [|a0 anchors'] eqn:EA.
    { injection Hd as <-. by apply elem_of_nil in Hin. }
    rewrite <- EA in Hd, Hc |- *. simpl in Hd.
    apply (nms_greedy_aux _ (length _) _ _ (Nat.le_refl _)) in Hd.
    apply greedy_subset with (d := d) in Hd; [|done].
    apply list_elem_of_In, List.in_map_iff in Hd as (a & <- & Ha).
    exists a. by rewrite list_elem_of_In.
Qed.

(** C7: nothing in, nothing out.  A tensor without a surviving anchor
    decodes to the empty list, and [nms], the id assignment, the merge and
    the distance check return empty lists on empty lists; none raises. *)
Theorem empty_propagates (output : list Array2) (out : Array2)
    (orig_w orig_h : Z) (conf_thres t : Q) :
  output !! 0%nat = Some out ->
  (forall a, (a < shape1 out)%nat -> survives out conf_thres a = false) ->
  decode_yolov11_persons output orig_w orig_h conf_thres = Ok []
  /\ nms [] t = Ok []
  /\ locate_all orig_w orig_h [] = ([], [])
  /\ merge [] [] = Ok []
  /\ close_pairs [] = Ok [].
Proof.
  intros Hout Hnone. split_and!; try reflexivity.
  unfold decode_yolov11_persons. rewrite (index_ok _ _ _ Hout). simpl.
  destruct (decide (shape0 out = 84%nat)) as [Hs|Hs].
  - rewrite (decode_candidates_spec _ _ _ _ Hs).
    destruct (List.filter _ _) as [|a anchors] eqn:EA; [done|].
    assert (Ha : List.In a (List.filter (survives out conf_thres)
                                        (seq 0 (shape1 out))))
      by (rewrite EA; by left).
    apply List.filter_In in Ha as [Ha Hsurv]. apply in_seq in Ha.
    rewrite Hnone in Hsurv by lia. done.
  - unfold decode_candidates. apply Nat.eqb_neq in Hs. by rewrite Hs.
Qed.


(** ** The merge of duplicate detections *)

(** On boxes with integer corners the denominator of the IoU is an integer
    plus [1e-6], so the division is defined. *)
Lemma integral_inject z : integral (inject_Z z).
Proof. by exists z. Qed.

Lemma integral_sub a b : integral a -> integral b -> integral (a - b).
Proof.
  intros [x Hx] [y Hy]. exists (x - y)%Z.
  rewrite Hx, Hy. unfold Zminus. rewrite inject_Z_plus, inject_Z_opp. ring.
Qed.

Lemma integral_add a b : integral a -> integral b -> integral (a + b).
Proof.
  intros [x Hx] [y Hy]. exists (x + y)%Z.
  by rewrite Hx, Hy, inject_Z_plus.
Qed.

Lemma integral_mul a b : integral a -> integral b -> integral (a * b).
Proof.
  intros [x Hx] [y Hy]. exists (x * y)%Z.
  by rewrite Hx, Hy, inject_Z_mult.
Qed.

Lemma integral_py_max a b : integral a -> integral b -> integral (py_max a b).
Proof. intros Ha Hb. unfold py_max. by destruct (Qltb a b). Qed.

Lemma integral_py_min a b : integral a -> integral b -> integral (py_min a b).
Proof. intros Ha Hb. unfold py_min. by destruct (Qltb b a). Qed.

Lemma integral_plus_eps q : integral q -> ~ q + eps == 0.
Proof.
  intros [z Hz] H. rewrite Hz in H.
  destruct (Z_lt_le_dec z 0) as [Hneg|Hpos].
  - assert (z <= -1)%Z as Hle by lia. rewrite Zle_Qle in Hle.
    assert (He : eps < 1) by reflexivity.
    change (inject_Z (-1)) with (-1) in Hle. lra.
  - rewrite Zle_Qle in Hpos. assert (He : 0 < eps) by reflexivity.
    change (inject_Z 0) with 0 in Hpos. lra.
Qed.

Lemma compute_iou_box_of (pb1 pb2 : PersonBox) :
  exists iou, compute_iou (box_of pb1) (box_of pb2) = Ok iou.
Proof.
  eexists. unfold compute_iou. apply py_div_ok.
  apply integral_plus_eps. unfold box_of. simpl.
  repeat first [ apply integral_sub | apply integral_add | apply integral_mul
               | apply integral_py_max | apply integral_py_min
               | apply integral_inject | apply (integral_inject 0) ].
Qed.

Lemma merge_logic_ok pb1 pp1 pb2 pp2 :
  exists dup, merge_logic pb1 pp1 pb2 pp2 = Ok dup.
Proof.
  unfold merge_logic. destruct (compute_iou_box_of pb1 pb2) as [v ->].
  simpl. eauto.
Qed.

Section MergeLoop.

Variable person_boxes : list PersonBox.
Variable person_positions : list PersonPos.
Hypothesis same_length : length person_positions = length person_boxes.

Let n := length person_boxes.
Let dup := duplicate_of person_boxes person_positions.

(** The inner loop adds to [skip] the duplicates of [i] in its range. *)
Lemma merge_inner_loop i pb1 pp1 m s skip :
  person_boxes !! i = Some pb1 -> person_positions !! i = Some pp1 ->
  (s + m <= n)%nat ->
  exists skip',
    for_each (merge_inner person_boxes person_positions pb1 pp1)
             (seq s m) skip = Ok skip'
    /\ forall j, j ∈ skip' <->
         j ∈ skip \/ ((s <= j < s + m)%nat /\ dup i j = true).
Proof using same_length.
  forget_camera.
  intros Hb Hp. revert s skip. induction m as [|m IH]; intros s skip Hm.
  { exists skip. split; [done|]. intros j. intuition lia. }
  simpl. unfold merge_inner at 1.
  destruct (decide (s ∈ skip)) as [Hin|Hout].
  - simpl. destruct (IH (S s) skip ltac:(lia)) as (skip' & -> & Hs).
    exists skip'. split; [done|]. intros j. rewrite Hs.
    destruct (decide (j = s)) as [->|]; intuition lia.
  - destruct (lookup_lt_is_Some_2 person_boxes s ltac:(unfold n in Hm; lia))
      as [pb2 Hb2].
    destruct (lookup_lt_is_Some_2 person_positions s
                ltac:(unfold n in Hm; lia)) as [pp2 Hp2].
    rewrite (index_ok _ _ _ Hb2), (index_ok _ _ _ Hp2). simpl.
    destruct (merge_logic_ok pb1 pp1 pb2 pp2) as [d Hd]. rewrite Hd. simpl.
    assert (Hdup : dup i s = d).
    { unfold dup, duplicate_of. by rewrite Hb, Hp, Hb2, Hp2, Hd. }
    destruct (IH (S s) (if d then {[s]} ∪ skip else skip) ltac:(lia))
      as (skip' & -> & Hs).
    exists skip'. split; [done|]. intros j. rewrite Hs.
    destruct (decide (j = s)) as [->|Hne].
    + rewrite Hdup. destruct d.
      * rewrite elem_of_union, elem_of_singleton. intuition lia.
      * split; [intros [?|[? ?]]|intros [?|[? ?]]]; try done; lia.
    + assert (j ∈ (if d then {[s]} ∪ skip else skip) <-> j ∈ skip) as ->.
      { destruct d; [|done].
        rewrite elem_of_union, elem_of_singleton. tauto. }
      intuition lia.
Qed.

(** The state of the outer loop after the rounds [0 .. k-1]. *)
Definition merge_inv (k : nat) (st : list PersonBox * gset nat) : Prop :=
  let '(merged, skip) := st in
  merged = unskipped skip person_boxes k
  /\ forall j, j ∈ skip <->
       exists i, (i < k)%nat /\ (i < j < n)%nat /\ (i ∉ skip) /\ dup i j = true.

Lemma unskipped_S skip k :
  unskipped skip person_boxes (S k)
  = unskipped skip person_boxes k
    ++ (if decide (k ∈ skip) then []
        else match person_boxes !! k with Some pb => [pb] | None => [] end).
Proof.
  unfold unskipped. rewrite seq_S, omap_app. simpl. f_equal.
  destruct (decide (k ∈ skip)); [done|]. by destruct (person_boxes !! k).
Qed.

Lemma unskipped_ext skip skip' k :
  (forall i, (i < k)%nat -> i ∈ skip <-> i ∈ skip') ->
  unskipped skip person_boxes k = unskipped skip' person_boxes k.
Proof.
  intros H. unfold unskipped. apply list_omap_ext, Forall2_same_length_lookup.
  split; [done|]. intros i x y Hx Hy. rewrite Hx in Hy. injection Hy as <-.
  apply lookup_seq in Hx as [-> Hx]. simpl.
  specialize (H i Hx).
  destruct (decide (i ∈ skip)) as [Hi|Hi], (decide (i ∈ skip')) as [Hi'|Hi'];
    try done; exfalso; [by apply Hi', H | by apply Hi, H].
Qed.

Lemma merge_outer_loop k :
  (k <= n)%nat ->
  exists st,
    for_each (merge_outer person_boxes person_positions) (seq 0 k) ([], ∅)
    = Ok st /\ merge_inv k st.
Proof using same_length.
  forget_camera. induction k as [|k IH]; intros Hk.
  { exists ([], ∅). split; [done|]. split; [done|].
    intros j. split; [by intros ?%not_elem_of_empty|]. intros (i & ? & _). lia. }
  destruct (IH ltac:(lia)) as ([merged skip] & Hloop & Hm & Hskip).
  rewrite seq_S, for_each_app, Hloop. simpl.
  destruct (decide (k ∈ skip)) as [Hin|Hout].
  - exists (merged, skip). split; [done|]. split.
    + rewrite unskipped_S, decide_True by done. by rewrite app_nil_r.
    + intros j. rewrite Hskip. split.
      * intros (i & ? & ?). exists i. split; [lia | done].
      * intros (i & Hi & Hj & Hni & Hd). exists i.
        destruct (decide (i = k)) as [->|]; [done|]. split; [lia | done].
  - destruct (lookup_lt_is_Some_2 person_boxes k ltac:(unfold n in Hk; lia))
      as [pb1 Hb1].
    destruct (lookup_lt_is_Some_2 person_positions k
                ltac:(unfold n in Hk; lia)) as [pp1 Hp1].
    rewrite (index_ok _ _ _ Hb1), (index_ok _ _ _ Hp1). simpl.
    destruct (merge_inner_loop k pb1 pp1 (n - S k) (S k) skip Hb1 Hp1
                ltac:(lia)) as (skip' & Hin & Hs).
    fold n. rewrite Hin. simpl.
    assert (Hold : forall i, (i <= k)%nat -> i ∈ skip' <-> i ∈ skip).
    { intros i Hi. rewrite Hs. intuition lia. }
    exists (merged ++ [pb1], skip'). split; [done|]. split.
    + rewrite unskipped_S, decide_False, Hb1, Hm.
      * f_equal. apply unskipped_ext. intros i Hi. symmetry. apply Hold. lia.
      * rewrite Hold by lia. done.
    + intros j. rewrite Hs, Hskip. split.
      * intros [(i & Hi & Hj & Hni & Hd)|[Hj Hd]].
        -- exists i. rewrite Hold by lia. split; [lia | done].
        -- exists k. rewrite Hold by lia. split; [lia|]. split; [lia | done].
      * intros (i & Hi & Hj & Hni & Hd).
        destruct (decide (i = k)) as [->|Hne].
        -- right. split; [lia | done].
        -- left. exists i. rewrite Hold in Hni by lia. split; [lia | done].
Qed.

End MergeLoop.


Lemma duplicate_of_spec person_boxes person_positions i j :
  duplicate_of person_boxes person_positions i j = true
  <-> exists pb1 pp1 pb2 pp2 iou,
        person_boxes !! i = Some pb1 /\ person_positions !! i = Some pp1
        /\ person_boxes !! j = Some pb2 /\ person_positions !! j = Some pp2
        /\ compute_iou (box_of pb1) (box_of pb2) = Ok iou
        /\ ((25 # 100 < iou /\ dist3d pp1 pp2 < 35 # 100)
            \/ pixel_dist pb1 pb2 < 140).
Proof.
  unfold duplicate_of, merge_logic. split.
  - destruct (person_boxes !! i) as [pb1|]; [|done].
    destruct (person_positions !! i) as [pp1|]; [|done].
    destruct (person_boxes !! j) as [pb2|]; [|done].
    destruct (person_positions !! j) as [pp2|]; [|done].
    destruct (compute_iou (box_of pb1) (box_of pb2)) as [iou|e] eqn:E;
      [|done].
    simpl. intros H. exists pb1, pp1, pb2, pp2, iou.
    split_and!; try done.
    apply orb_true_iff in H as [H|H].
    + apply andb_true_iff in H as [H1 H2]. left.
      split; by apply Qltb_lt.
    + right. by apply Qltb_lt.
  - intros (pb1 & pp1 & pb2 & pp2 & iou & -> & -> & -> & -> & -> & H). simpl.
    apply orb_true_iff. destruct H as [[H1 H2]|H].
    + left. apply andb_true_iff. split; by apply Qltb_lt.
    + right. by apply Qltb_lt.
Qed.

(** C1: the merge returns the candidates whose index is not skipped, in
    their original order, and a candidate [j] is skipped exactly when an
    earlier candidate [i] that is not skipped itself has
    [(iou > 0.25 and dist3d < 0.35) or pixel_dist < 140] with it. *)
Theorem merge_rule (person_boxes : list PersonBox)
    (person_positions : list PersonPos) :
  length person_positions = length person_boxes ->
  exists merged skip,
    merge_state person_boxes person_positions = Ok (merged, skip)
    /\ merge person_boxes person_positions = Ok merged
    /\ merged = unskipped skip person_boxes (length person_boxes)
    /\ forall j, j ∈ skip <->
         exists i pb1 pp1 pb2 pp2 iou,
           (i < j)%nat /\ (i ∉ skip)
           /\ person_boxes !! i = Some pb1 /\ person_positions !! i = Some pp1
           /\ person_boxes !! j = Some pb2 /\ person_positions !! j = Some pp2
           /\ compute_iou (box_of pb1) (box_of pb2) = Ok iou
           /\ ((25 # 100 < iou /\ dist3d pp1 pp2 < 35 # 100)
               \/ pixel_dist pb1 pb2 < 140).
Proof.
  intros Hlen.
  destruct (merge_outer_loop person_boxes person_positions Hlen
              (length person_boxes) ltac:(lia))
    as ([merged skip] & Hloop & Hm & Hskip).
  exists merged, skip. unfold merge, merge_state. rewrite Hloop.
  split_and!; try done.
  intros j. rewrite Hskip. split.
  - intros (i & Hi & Hj & Hni & Hd).
    apply duplicate_of_spec in Hd
      as (pb1 & pp1 & pb2 & pp2 & iou & ? & ? & ? & ? & ? & ?).
    exists i, pb1, pp1, pb2, pp2, iou. split_and!; try done. lia.
  - intros (i & pb1 & pp1 & pb2 & pp2 & iou & Hi & Hni & Hb1 & Hp1 & Hb2
            & Hp2 & Hiou & Hc).
    exists i. apply lookup_lt_Some in Hb2 as Hj.
    split_and!; try done; try lia.
    apply duplicate_of_spec. exists pb1, pp1, pb2, pp2, iou. done.
Qed.


(** ** Person ids *)

Lemma locate_ids orig_w orig_h st det :
  exists pp pb,
    locate orig_w orig_h st det
    = (st.1.1 ++ [pp], st.1.2 ++ [pb], (st.2 + 1)%Z)
    /\ pos_id pp = st.2 /\ pid pb = st.2.
Proof.
  destruct st as [[person_positions person_boxes] id_counter].
  unfold locate. destruct (deproject _ _ _) as [[X Y] Z0]. simpl. eauto.
Qed.

Lemma locate_fold orig_w orig_h dets :
  forall person_positions person_boxes s,
  exists pps pbs,
    fold_left (locate orig_w orig_h) dets
              (person_positions, person_boxes, Z.of_nat s)
    = (person_positions ++ pps, person_boxes ++ pbs,
       Z.of_nat (s + length dets))
    /\ map pos_id pps = map Z.of_nat (seq s (length dets))
    /\ map pid pbs = map Z.of_nat (seq s (length dets)).
Proof.
  induction dets as [|det dets IH]; intros person_positions person_boxes s.
  { exists [], []. simpl. by rewrite !app_nil_r, Nat.add_0_r. }
  cbn [fold_left].
  destruct (locate_ids orig_w orig_h
              (person_positions, person_boxes, Z.of_nat s) det)
    as (pp & pb & -> & Hpp & Hpb). simpl in *.
  replace (Z.of_nat s + 1)%Z with (Z.of_nat (S s)) by lia.
  destruct (IH (person_positions ++ [pp]) (person_boxes ++ [pb]) (S s))
    as (pps & pbs & -> & Hpps & Hpbs).
  exists (pp :: pps), (pb :: pbs). split_and!.
  - rewrite <- !app_assoc. simpl. do 2 f_equal. lia.
  - simpl. by rewrite Hpp, Hpps.
  - simpl. by rewrite Hpb, Hpbs.
Qed.

Lemma unskipped_sublist skip (l : list PersonBox) k :
  unskipped skip l k `sublist_of` take k l.
Proof.
  induction k as [|k IH]; [done|].
  rewrite unskipped_S.
  destruct (l !! k) as [pb|] eqn:E.
  - rewrite (take_S_r l k pb E). apply sublist_app; [done|].
    destruct (decide (k ∈ skip)); [apply sublist_nil_l | done].
  - apply lookup_ge_None in E.
    rewrite take_ge in IH |- * by lia.
    destruct (decide (k ∈ skip)); by rewrite app_nil_r.
Qed.

(** C8: the ids given to the decoded detections are 1, 2, 3, ... in
    order, and the persons that the merge returns are some of them: their
    ids are at least 1 and pairwise distinct. *)
Theorem person_ids (orig_w orig_h : Z) (dets : list Det) :
  exists person_positions person_boxes merged,
    locate_all orig_w orig_h dets = (person_positions, person_boxes)
    /\ map pid person_boxes = map Z.of_nat (seq 1 (length dets))
    /\ map pos_id person_positions = map Z.of_nat (seq 1 (length dets))
    /\ merge person_boxes person_positions = Ok merged
    /\ merged `sublist_of` person_boxes
    /\ Forall (fun pb => (1 <= pid pb)%Z) merged
    /\ NoDup (map pid merged).
Proof.
  destruct (locate_fold orig_w orig_h dets [] [] 1)
    as (person_positions & person_boxes & Hfold & Hpos & Hids).
  change (Z.of_nat 1) with 1%Z in Hfold.
  assert (Hlen : length person_positions = length person_boxes).
  { rewrite <- (length_map pos_id), <- (length_map pid person_boxes).
    by rewrite Hpos, Hids. }
  destruct (merge_outer_loop person_boxes person_positions Hlen
              (length person_boxes) ltac:(lia))
    as ([merged skip] & Hloop & Hm & _).
  assert (Hmerge : merge person_boxes person_positions = Ok merged).
  { unfold merge, merge_state. by rewrite Hloop. }
  assert (Hsub : merged `sublist_of` person_boxes).
  { rewrite Hm. etrans; [apply unskipped_sublist | apply sublist_take]. }
  assert (Hone : Forall (fun z => (1 <= z)%Z) (map pid person_boxes)).
  { rewrite Hids, List.Forall_forall. intros z Hz.
    apply List.in_map_iff in Hz as (k & <- & Hk). apply in_seq in Hk. lia. }
  assert (Hnodup : NoDup (map pid person_boxes)).
  { rewrite Hids, map_fmap. apply NoDup_fmap_2; [|apply NoDup_seq].
    intros x y. lia. }
  exists person_positions, person_boxes, merged.
  split_and!; try done.
  - unfold locate_all. by rewrite Hfold.
  - rewrite Forall_forall. intros pb Hpb.
    rewrite List.Forall_forall in Hone. apply Hone, List.in_map.
    apply list_elem_of_In. by eapply elem_of_sublist.
  - apply sublist_NoDup with (map pid person_boxes); [done|].
    rewrite !map_fmap. by apply fmap_sublist.
Qed.


(** ** The pairs that stand too close *)

Lemma pairs_inner_loop (person_boxes : list PersonBox) i m s acc :
  (i < length person_boxes)%nat -> (s + m <= length person_boxes)%nat ->
  exists alerts,
    for_each (pairs_inner person_boxes i) (seq s m) acc = Ok (acc ++ alerts)
    /\ Forall2 (fun al p => alert_at person_boxes p = Some al) alerts
         (map (pair i) (List.filter (close_at person_boxes i) (seq s m))).
Proof.
  intros Hi. revert s acc. induction m as [|m IH]; intros s acc Hm.
  { exists []. split; [by rewrite app_nil_r | constructor]. }
  destruct (lookup_lt_is_Some_2 person_boxes i Hi) as [pb1 Hb1].
  destruct (lookup_lt_is_Some_2 person_boxes s ltac:(lia)) as [pb2 Hb2].
  assert (Hal : alert_at person_boxes (i, s)
                = Some (pid pb1, pid pb2,
                        norm_diff (center_point pb1) (center_point pb2))).
  { unfold alert_at. simpl. by rewrite Hb1, Hb2. }
  simpl. unfold pairs_inner at 1.
  rewrite (index_ok _ _ _ Hb1), (index_ok _ _ _ Hb2). simpl.
  unfold close_at at 1. rewrite Hal.
  destruct (Qltb _ (8 # 10)).
  - destruct (IH (S s) (acc ++ [(pid pb1, pid pb2,
                 norm_diff (center_point pb1) (center_point pb2))])
                ltac:(lia)) as (alerts & -> & Hall).
    eexists (_ :: alerts). split; [by rewrite <- app_assoc|].
    simpl. by constructor.
  - destruct (IH (S s) acc ltac:(lia)) as (alerts & -> & Hall).
    by exists alerts.
Qed.

Lemma pairs_outer_loop (person_boxes : list PersonBox) k :
  (k <= length person_boxes)%nat ->
  exists alerts,
    for_each (pairs_outer person_boxes) (seq 0 k) [] = Ok alerts
    /\ Forall2 (fun al p => alert_at person_boxes p = Some al) alerts
         (flat_map (row_pairs person_boxes) (seq 0 k)).
Proof.
  induction k as [|k IH]; intros Hk.
  { exists []. split; [done | constructor]. }
  destruct (IH ltac:(lia)) as (alerts & Hloop & Hall).
  rewrite seq_S, for_each_app, Hloop, flat_map_app. simpl.
  unfold pairs_outer.
  destruct (pairs_inner_loop person_boxes k (length person_boxes - S k)
              (S k) alerts ltac:(lia) ltac:(lia)) as (more & -> & Hmore).
  exists (alerts ++ more). split; [done|].
  apply Forall2_app; [done|]. by rewrite app_nil_r.
Qed.

Lemma seq_sorted s m : StronglySorted lt (seq s m).
Proof.
  revert s. induction m as [|m IH]; intros s; simpl; constructor; [done|].
  rewrite List.Forall_forall. intros x Hx. apply in_seq in Hx. lia.
Qed.

Lemma filter_sorted {A} (R : A -> A -> Prop) (p : A -> bool) l :
  StronglySorted R l -> StronglySorted R (List.filter p l).
Proof.
  induction 1 as [|x l Hl IH Hx]; simpl; [constructor|].
  destruct (p x); [|done]. constructor; [done|].
  rewrite List.Forall_forall in Hx |- *. intros y Hy.
  apply List.filter_In in Hy as [Hy _]. by apply Hx.
Qed.

Lemma row_pairs_elem (person_boxes : list PersonBox) i p :
  p ∈ row_pairs person_boxes i
  <-> p.1 = i /\ (i < p.2 < length person_boxes)%nat
      /\ close_at person_boxes i p.2 = true.
Proof.
  unfold row_pairs.
  rewrite list_elem_of_In, List.in_map_iff. split.
  - intros (j & <- & Hj). apply List.filter_In in Hj as [Hj Hc].
    apply in_seq in Hj. simpl. split_and!; try done; lia.
  - intros (Hi & Hj & Hc). exists p.2. split.
    + destruct p as [a b]. simpl in *. by subst.
    + apply List.filter_In. split; [|done]. apply in_seq. lia.
Qed.

Lemma row_pairs_sorted (person_boxes : list PersonBox) i :
  StronglySorted lex_lt (row_pairs person_boxes i).
Proof.
  unfold row_pairs. rewrite map_fmap.
  apply StronglySorted_fmap with (R1 := lt).
  - intros x y Hxy. right. simpl. done.
  - apply filter_sorted, seq_sorted.
Qed.

Lemma all_pairs_elem (person_boxes : list PersonBox) k p :
  p ∈ flat_map (row_pairs person_boxes) (seq 0 k)
  <-> (p.1 < k)%nat /\ (p.1 < p.2 < length person_boxes)%nat
      /\ close_at person_boxes p.1 p.2 = true.
Proof.
  rewrite list_elem_of_In, in_flat_map. split.
  - intros (i & Hi & Hp). apply in_seq in Hi.
    apply list_elem_of_In, row_pairs_elem in Hp as (<- & Hj & Hc).
    split_and!; try done; lia.
  - intros (Hi & Hj & Hc). exists p.1. split; [apply in_seq; lia|].
    apply list_elem_of_In, row_pairs_elem. done.
Qed.

Lemma all_pairs_sorted (person_boxes : list PersonBox) k :
  StronglySorted lex_lt (flat_map (row_pairs person_boxes) (seq 0 k)).
Proof.
  induction k as [|k IH]; [constructor|].
  rewrite seq_S, flat_map_app. simpl. rewrite app_nil_r.
  apply StronglySorted_app_2; [|done|apply row_pairs_sorted].
  intros p q Hp Hq. apply all_pairs_elem in Hp as (Hp & _).
  apply row_pairs_elem in Hq as (Hq & _). left. lia.
Qed.

(** C3: the alerts are those of the index pairs [i < j] whose deprojected
    box centres are less than 0.8 apart, each once, in ascending order of
    [(i, j)], with the two ids and the distance. *)
Theorem close_pairs_rule (person_boxes : list PersonBox) :
  exists alerts pairs,
    close_pairs person_boxes = Ok alerts
    /\ Forall2 (fun al p =>
         exists pb1 pb2,
           person_boxes !! p.1 = Some pb1 /\ person_boxes !! p.2 = Some pb2
           /\ al = (pid pb1, pid pb2,
                    norm_diff (center_point pb1) (center_point pb2)))
         alerts pairs
    /\ StronglySorted lex_lt pairs
    /\ forall i j, (i, j) ∈ pairs <->
         (i < j)%nat
         /\ exists pb1 pb2,
              person_boxes !! i = Some pb1 /\ person_boxes !! j = Some pb2
              /\ norm_diff (center_point pb1) (center_point pb2) < 8 # 10.
Proof.
  destruct (pairs_outer_loop person_boxes (length person_boxes) ltac:(lia))
    as (alerts & Hloop & Hall).
  exists alerts, (flat_map (row_pairs person_boxes)
                           (seq 0 (length person_boxes))).
  split_and!.
  - done.
  - eapply Forall2_impl; [exact Hall|]. intros al p. unfold alert_at.
    destruct (person_boxes !! p.1) as [pb1|]; [|done].
    destruct (person_boxes !! p.2) as [pb2|]; [|done].
    intros [= <-]. by exists pb1, pb2.
  - apply all_pairs_sorted.
  - intros i j. rewrite all_pairs_elem. simpl.
    unfold close_at, alert_at. simpl. split.
    + intros (Hi & Hj & Hc).
      destruct (person_boxes !! i) as [pb1|]; [|done].
      destruct (person_boxes !! j) as [pb2|]; [|done].
      split; [lia|]. exists pb1, pb2. split_and!; try done.
      by apply Qltb_lt.
    + intros (Hij & pb1 & pb2 & Hb1 & Hb2 & Hd).
      apply lookup_lt_Some in Hb2 as Hj. rewrite Hb1, Hb2.
      split_and!; try lia. by apply Qltb_lt.
Qed.


(** ** Further properties of [compute_iou] *)

(** The side of the intersection along one axis. *)
Lemma inter_side lo1 hi1 lo2 hi2 :
  lo1 <= hi1 -> lo2 <= hi2 ->
  0 <= py_max 0 (py_min hi1 hi2 - py_max lo1 lo2)
  /\ py_max 0 (py_min hi1 hi2 - py_max lo1 lo2) <= hi1 - lo1
  /\ py_max 0 (py_min hi1 hi2 - py_max lo1 lo2) <= hi2 - lo2
  /\ (hi1 <= lo2 \/ hi2 <= lo1 ->
      py_max 0 (py_min hi1 hi2 - py_max lo1 lo2) == 0)
  /\ (lo1 < hi1 -> lo2 < hi2 -> lo1 < hi2 -> lo2 < hi1 ->
      0 < py_max 0 (py_min hi1 hi2 - py_max lo1 lo2)).
Proof.
  intros H1 H2.
  destruct (py_min_spec hi1 hi2) as [[? ->]|[? ->]],
           (py_max_spec lo1 lo2) as [[? ->]|[? ->]];
    match goal with
    | |- context [py_max 0 ?x] =>
        destruct (py_max_spec 0 x) as [[? ->]|[? ->]]
    end; split_and!; try lra; intros; lra.
Qed.

(** X1: on well-formed boxes [compute_iou] returns a number in [0, 1). *)
Theorem compute_iou_range (a b : Box) :
  well_formed a -> well_formed b ->
  exists v, compute_iou a b = Ok v /\ 0 <= v /\ v < 1.
Proof.
  intros [Hax Hay] [Hbx Hby]. unfold compute_iou.
  destruct (inter_side (xmin a) (xmax a) (xmin b) (xmax b) Hax Hbx)
    as (Hw0 & Hwa & Hwb & _).
  destruct (inter_side (ymin a) (ymax a) (ymin b) (ymax b) Hay Hby)
    as (Hh0 & Hha & Hhb & _).
  set (iw := py_max 0 (py_min (xmax a) (xmax b) - py_max (xmin a) (xmin b)))
    in Hw0, Hwa, Hwb |- *.
  set (ih := py_max 0 (py_min (ymax a) (ymax b) - py_max (ymin a) (ymin b)))
    in Hh0, Hha, Hhb |- *.
  assert (He : 0 < eps) by reflexivity.
  assert (Hi : 0 <= iw * ih) by nra.
  assert (Hla : iw * ih <= (xmax a - xmin a) * (ymax a - ymin a)) by nra.
  assert (Hlb : iw * ih <= (xmax b - xmin b) * (ymax b - ymin b)) by nra.
  eexists. split_and!.
  - apply py_div_ok. lra.
  - apply Qle_shift_div_l; lra.
  - apply Qlt_shift_div_r; lra.
Qed.

(** X2: on well-formed boxes the IoU is 0 when the boxes are apart or only
    touch along an axis, and positive when both have positive width and
    height and overlap on both axes. *)
Theorem compute_iou_overlap (a b : Box) :
  well_formed a -> well_formed b ->
  exists v, compute_iou a b = Ok v
    /\ (xmax a <= xmin b \/ xmax b <= xmin a
        \/ ymax a <= ymin b \/ ymax b <= ymin a -> v == 0)
    /\ (xmin a < xmax a -> ymin a < ymax a ->
        xmin b < xmax b -> ymin b < ymax b ->
        xmin a < xmax b -> xmin b < xmax a ->
        ymin a < ymax b -> ymin b < ymax a -> 0 < v).
Proof.
  intros [Hax Hay] [Hbx Hby]. unfold compute_iou.
  destruct (inter_side (xmin a) (xmax a) (xmin b) (xmax b) Hax Hbx)
    as (Hw0 & Hwa & Hwb & Hwz & Hwp).
  destruct (inter_side (ymin a) (ymax a) (ymin b) (ymax b) Hay Hby)
    as (Hh0 & Hha & Hhb & Hhz & Hhp).
  set (iw := py_max 0 (py_min (xmax a) (xmax b) - py_max (xmin a) (xmin b)))
    in Hw0, Hwa, Hwb, Hwz, Hwp |- *.
  set (ih := py_max 0 (py_min (ymax a) (ymax b) - py_max (ymin a) (ymin b)))
    in Hh0, Hha, Hhb, Hhz, Hhp |- *.
  assert (He : 0 < eps) by reflexivity.
  assert (Hi : 0 <= iw * ih) by nra.
  assert (Hla : iw * ih <= (xmax a - xmin a) * (ymax a - ymin a)) by nra.
  assert (Hb0 : 0 <= (xmax b - xmin b) * (ymax b - ymin b)) by nra.
  eexists. split_and!.
  - apply py_div_ok. lra.
  - intros Hsep.
    assert (Hz : iw * ih == 0).
    { destruct Hsep as [H|[H|[H|H]]].
      - rewrite (Hwz (or_introl H)). ring.
      - rewrite (Hwz (or_intror H)). ring.
      - rewrite (Hhz (or_introl H)). ring.
      - rewrite (Hhz (or_intror H)). ring. }
    rewrite Hz. unfold Qdiv. ring.
  - intros. apply Qlt_shift_div_l; [lra|].
    assert (0 < iw) by auto. assert (0 < ih) by auto. nra.
Qed.

(** X3: on boxes with integer corners, as the merge calls it, [compute_iou]
    never raises, also when a box has its corners in the wrong order. *)
Theorem compute_iou_integral (a b : Box) :
  integral_box a -> integral_box b ->
  exists v, compute_iou a b = Ok v.
Proof.
  intros (Ha1 & Ha2 & Ha3 & Ha4) (Hb1 & Hb2 & Hb3 & Hb4).
  eexists. unfold compute_iou. apply py_div_ok, integral_plus_eps.
  repeat first [ apply integral_sub | apply integral_add | apply integral_mul
               | apply integral_py_max | apply integral_py_min
               | apply (integral_inject 0) | assumption ].
Qed.


(** ** Further properties of [nms] *)

Lemma below_passes best t d : below best t d = true <-> passes t best d.
Proof.
  unfold below, passes. destruct (compute_iou (box best) (box d)) as [v|e].
  - rewrite Qltb_lt. split; [eauto|]. by intros (w & [= <-] & Hw).
  - split; [done|]. by intros (w & ? & _).
Qed.

Lemma remove_overlapping_Ok best t l r :
  remove_overlapping best t l = Ok r ->
  r = List.filter (below best t) l
  /\ Forall (fun d => iou_defined best d = true) l.
Proof.
  rewrite remove_overlapping_filter.
  destruct (forallb (iou_defined best) l) eqn:E; [|done].
  intros [= <-]. split; [done|].
  rewrite List.Forall_forall. by apply forallb_forall.
Qed.

Lemma filter_sublist {A} (p : A -> bool) (l : list A) :
  List.filter p l `sublist_of` l.
Proof.
  induction l as [|x l IH]; simpl; [done|].
  destruct (p x); [by apply sublist_skip | by apply sublist_cons].
Qed.

Lemma insert_desc_perm d l : insert_desc d l ≡ₚ d :: l.
Proof.
  induction l as [|e l IH]; simpl; [done|].
  destruct (Qltb (score d) (score e)); [|done].
  rewrite IH. apply Permutation_swap.
Qed.

Lemma sorted_desc_perm l : sorted_desc l ≡ₚ l.
Proof.
  induction l as [|d l IH]; simpl; [done|].
  by rewrite insert_desc_perm, IH.
Qed.

Lemma sorted_desc_split before best after :
  Forall (fun d => score d < score best) before ->
  Forall (fun d => score d <= score best) after ->
  sorted_desc (before ++ best :: after)
  = best :: sorted_desc (before ++ after).
Proof.
  intros Hb Ha.
  destruct (before ++ best :: after) as [|d rest] eqn:E.
  { by destruct before. }
  rewrite sorted_desc_select.
  by rewrite (select_best_first before best after d rest (eq_sym E) Hb Ha).
Qed.

Lemma greedy_sublist t dets keep :
  greedy t dets keep -> keep `sublist_of` sorted_desc dets.
Proof.
  induction 1 as [|before best after remaining kept Hb Ha Hr Hg IH];
    [done|].
  rewrite sorted_desc_split by done. apply sublist_skip.
  apply remove_overlapping_Ok in Hr as [-> _].
  etrans; [exact IH|]. rewrite <- filter_sorted_desc. apply filter_sublist.
Qed.

Lemma descending_sublist l k :
  k `sublist_of` l -> descending l -> descending k.
Proof.
  unfold descending. induction 1 as [|x k l Hs IH|x k l Hs IH]; intros Hl.
  - constructor.
  - apply StronglySorted_inv in Hl as [Hl Hx]. constructor; [by apply IH|].
    rewrite List.Forall_forall in Hx |- *. intros y Hy.
    apply Hx, list_elem_of_In. eapply elem_of_sublist; [|exact Hs].
    by apply list_elem_of_In.
  - apply StronglySorted_inv in Hl as [Hl _]. by apply IH.
Qed.

Lemma greedy_pairwise t dets keep :
  greedy t dets keep -> ForallOrdPairs (passes t) keep.
Proof.
  induction 1 as [|before best after remaining kept Hb Ha Hr Hg IH];
    constructor; [|done].
  apply remove_overlapping_Ok in Hr as [-> _].
  rewrite List.Forall_forall. intros d Hd.
  apply list_elem_of_In, (greedy_subset _ _ _ Hg), list_elem_of_In in Hd.
  apply List.filter_In in Hd as [_ Hd]. by apply below_passes.
Qed.

Lemma greedy_covers t dets keep :
  greedy t dets keep ->
  forall d, d ∈ dets ->
    d ∈ keep
    \/ exists k v, k ∈ keep /\ score d <= score k
                   /\ compute_iou (box k) (box d) = Ok v /\ t <= v.
Proof.
  induction 1 as [|before best after remaining kept Hb Ha Hr Hg IH];
    intros d Hd; [by apply elem_of_nil in Hd|].
  assert (Hcases : d = best \/ d ∈ before ++ after).
  { rewrite elem_of_app, elem_of_cons in Hd. rewrite elem_of_app.
    destruct Hd as [?|[?|?]]; auto. }
  destruct Hcases as [->|Hin]; [left; left|].
  apply remove_overlapping_Ok in Hr as [-> Hdef].
  assert (Hle : score d <= score best).
  { apply elem_of_app in Hin as [Hin|Hin].
    - rewrite Forall_forall in Hb. apply Hb in Hin. lra.
    - rewrite Forall_forall in Ha. by apply Ha. }
  destruct (below best t d) eqn:E.
  - assert (Hrem : d ∈ List.filter (below best t) (before ++ after)).
    { apply list_elem_of_In, List.filter_In. split; [|done].
      by apply list_elem_of_In. }
    destruct (IH d Hrem) as [Hk|(k & v & Hk & Hs & Hv & Ht)].
    + left. by right.
    + right. exists k, v. split_and!; try done. by right.
  - right. rewrite Forall_forall in Hdef. specialize (Hdef d Hin).
    unfold iou_defined in Hdef. unfold below in E.
    destruct (compute_iou (box best) (box d)) as [v|e] eqn:Ev; [|done].
    apply Qltb_ge in E. exists best, v. split_and!; try done. left.
Qed.

(** A descending list whose earlier boxes let the later ones pass is
    returned as it is. *)
Lemma nms_fixed t l :
  descending l -> ForallOrdPairs (passes t) l -> nms l t = Ok l.
Proof.
  unfold descending. induction l as [|k l IH]; intros Hd Hp; [done|].
  apply StronglySorted_inv in Hd as [Hd Hk].
  inversion Hp as [|? ? Hkl Hl]; subst.
  rewrite nms_step.
  rewrite (select_best_first [] k l k l eq_refl); [|constructor|done].
  simpl. rewrite remove_overlapping_filter.
  assert (forallb (iou_defined k) l = true) as ->.
  { apply forallb_forall. intros x Hx. rewrite List.Forall_forall in Hkl.
    destruct (Hkl x Hx) as (v & Hv & _). unfold iou_defined. by rewrite Hv. }
  assert (List.filter (below k t) l = l) as ->.
  { rewrite List.forallb_filter_id; [done|]. apply forallb_forall.
    intros x Hx. rewrite List.Forall_forall in Hkl.
    by apply below_passes, Hkl. }
  simpl. by rewrite IH.
Qed.

(** X4: the kept boxes are taken, in order and without repetition, from
    the input sorted by descending score; so their scores descend and they
    are no more than the input boxes. *)
Theorem nms_sorted_sublist (dets : list Det) (t : Q) (keep : list Det) :
  nms dets t = Ok keep ->
  exists sorted,
    sorted ≡ₚ dets /\ descending sorted /\ keep `sublist_of` sorted
    /\ descending keep /\ (length keep <= length dets)%nat.
Proof.
  intros H. apply (nms_greedy_aux t (length dets) _ _ (Nat.le_refl _)) in H.
  apply greedy_sublist in H as Hs.
  exists (sorted_desc dets). split_and!.
  - apply sorted_desc_perm.
  - apply sorted_desc_descending.
  - done.
  - eapply descending_sublist; [exact Hs | apply sorted_desc_descending].
  - apply sublist_length in Hs.
    by rewrite (Permutation_length (sorted_desc_perm dets)) in Hs.
Qed.

(** X5: of two kept boxes the IoU of the earlier one with the later one
    is defined and strictly below the threshold. *)
Theorem nms_no_overlap (dets : list Det) (t : Q) (keep : list Det) :
  nms dets t = Ok keep ->
  forall i j k k', (i < j)%nat -> keep !! i = Some k -> keep !! j = Some k' ->
    exists v, compute_iou (box k) (box k') = Ok v /\ v < t.
Proof.
  intros H. apply (nms_greedy_aux t (length dets) _ _ (Nat.le_refl _)) in H.
  apply greedy_pairwise in H. clear dets.
  induction H as [|x l Hx Hl IH]; intros i j k k' Hij Hi Hj.
  { by rewrite lookup_nil in Hi. }
  destruct j as [|j]; [lia|]. simpl in Hj. destruct i as [|i]; simpl in Hi.
  - injection Hi as <-. rewrite List.Forall_forall in Hx.
    apply Hx, list_elem_of_In. by eapply list_elem_of_lookup_2.
  - apply (IH i j); [lia | done | done].
Qed.

(** X6: every input box is kept, or a kept box with a score at least as
    high has an IoU with it that reaches the threshold. *)
Theorem nms_covers (dets : list Det) (t : Q) (keep : list Det) :
  nms dets t = Ok keep ->
  forall d, d ∈ dets ->
    d ∈ keep
    \/ exists k v, k ∈ keep /\ score d <= score k
                   /\ compute_iou (box k) (box d) = Ok v /\ t <= v.
Proof.
  intros H. apply (nms_greedy_aux t (length dets) _ _ (Nat.le_refl _)) in H.
  by apply greedy_covers.
Qed.

(** X7: suppressing the result again changes nothing. *)
Theorem nms_idempotent (dets : list Det) (t : Q) (keep : list Det) :
  nms dets t = Ok keep -> nms keep t = Ok keep.
Proof.
  intros H. apply (nms_greedy_aux t (length dets) _ _ (Nat.le_refl _)) in H.
  apply nms_fixed.
  - eapply descending_sublist;
      [by apply greedy_sublist in H | apply sorted_desc_descending].
  - by apply greedy_pairwise in H.
Qed.


(** *** The threshold at its extremes *)

Lemma iou_lt_one a b v :
  well_formed a -> well_formed b -> compute_iou a b = Ok v -> 0 <= v < 1.
Proof.
  intros Ha Hb Hv.
  destruct (compute_iou_defined a b Ha Hb) as (w & Hw & H0).
  rewrite Hv in Hw. injection Hw as <-. split; [done|].
  destruct Ha as [Hax Hay], Hb as [Hbx Hby].
  unfold compute_iou in Hv.
  destruct (inter_side (xmin a) (xmax a) (xmin b) (xmax b) Hax Hbx)
    as (Hw0 & Hwa & Hwb & _).
  destruct (inter_side (ymin a) (ymax a) (ymin b) (ymax b) Hay Hby)
    as (Hh0 & Hha & Hhb & _).
  set (iw := py_max 0 (py_min (xmax a) (xmax b) - py_max (xmin a) (xmin b)))
    in Hw0, Hwa, Hwb, Hv.
  set (ih := py_max 0 (py_min (ymax a) (ymax b) - py_max (ymin a) (ymin b)))
    in Hh0, Hha, Hhb, Hv.
  assert (He : 0 < eps) by reflexivity.
  assert (Hi : 0 <= iw * ih) by nra.
  assert (Hla : iw * ih <= (xmax a - xmin a) * (ymax a - ymin a)) by nra.
  assert (Hlb : iw * ih <= (xmax b - xmin b) * (ymax b - ymin b)) by nra.
  rewrite py_div_ok in Hv by lra. injection Hv as <-.
  apply Qlt_shift_div_r; lra.
Qed.

Lemma filter_none {A} (p : A -> bool) (l : list A) :
  (forall x, In x l -> p x = false) -> List.filter p l = [].
Proof.
  induction l as [|x l IH]; intros H; simpl; [done|].
  rewrite (H x (or_introl eq_refl)). apply IH. intros y Hy. apply H. by right.
Qed.

Lemma sorted_desc_id l : descending l -> sorted_desc l = l.
Proof.
  unfold descending. induction 1 as [|x l Hl IH Hx]; simpl; [done|].
  rewrite IH. by apply insert_desc_head.
Qed.

Lemma nms_sorted dets t : nms (sorted_desc dets) t = nms dets t.
Proof.
  rewrite !nms_eq_loop.
  by rewrite (sorted_desc_id _ (sorted_desc_descending dets)).
Qed.

Lemma well_formed_passes t l :
  1 <= t -> Forall (fun d => well_formed (box d)) l ->
  ForallOrdPairs (passes t) l.
Proof.
  intros Ht. induction 1 as [|x l Hx Hl IH]; constructor; [|done].
  rewrite List.Forall_forall. intros d Hd.
  rewrite Forall_forall in Hl. apply list_elem_of_In, Hl in Hd.
  destruct (compute_iou_defined (box x) (box d) Hx Hd) as (v & Hv & _).
  exists v. split; [done|].
  destruct (iou_lt_one _ _ _ Hx Hd Hv). lra.
Qed.

(** X8: with a threshold of 1 or more nothing is suppressed: on
    well-formed boxes [nms] returns all of them, sorted by descending
    score. *)
Theorem nms_threshold_one (dets : list Det) (t : Q) :
  1 <= t -> Forall (fun d => well_formed (box d)) dets ->
  exists keep, nms dets t = Ok keep /\ keep ≡ₚ dets /\ descending keep.
Proof.
  intros Ht Hwf. exists (sorted_desc dets). split_and!.
  - rewrite <- nms_sorted. apply nms_fixed; [apply sorted_desc_descending|].
    apply well_formed_passes; [done|].
    by rewrite (sorted_desc_perm dets).
  - apply sorted_desc_perm.
  - apply sorted_desc_descending.
Qed.

(** X9: with a threshold of 0 or less everything but the first box of
    highest score is suppressed, on well-formed boxes. *)
Theorem nms_threshold_zero (d : Det) (rest : list Det) (t : Q) :
  t <= 0 -> Forall (fun d => well_formed (box d)) (d :: rest) ->
  exists best,
    nms (d :: rest) t = Ok [best] /\ best ∈ d :: rest
    /\ Forall (fun x => score x <= score best) (d :: rest).
Proof.
  intros Ht Hwf. rewrite nms_step.
  destruct (select_best_split d rest) as (before & after & Hl & Ho & Hb & Ha).
  destruct (select_best d rest) as [best others]. simpl in Hl, Ho, Hb, Ha |- *.
  assert (Hbest : best ∈ d :: rest).
  { rewrite Hl. apply elem_of_app. right. left. }
  exists best. split_and!; [|done|].
  - rewrite remove_overlapping_filter.
    rewrite Forall_forall in Hwf.
    assert (Hothers : forall x, x ∈ others -> x ∈ d :: rest).
    { intros x Hx. rewrite Ho in Hx. rewrite Hl.
      apply elem_of_app in Hx as [?|?]; apply elem_of_app; [by left|].
      right. by right. }
    assert (forallb (iou_defined best) others = true) as ->.
    { apply forallb_forall. intros x Hx%list_elem_of_In%Hothers.
      destruct (compute_iou_defined (box best) (box x)) as (v & Hv & _);
        [by apply Hwf..|].
      unfold iou_defined. by rewrite Hv. }
    assert (List.filter (below best t) others = []) as ->.
    { apply filter_none.
      intros x Hx%list_elem_of_In%Hothers.
      destruct (compute_iou_defined (box best) (box x)) as (v & Hv & H0);
        [by apply Hwf..|].
      unfold below. rewrite Hv. apply Qltb_ge. lra. }
    done.
  - rewrite Hl. apply Forall_app. split.
    + eapply Forall_impl; [exact Hb|]. simpl. intros x Hx. lra.
    + constructor; [lra | done].
Qed.


(** ** Further properties of the decoder *)

Lemma nms_raise_aux t n :
  forall dets e, (length dets <= n)%nat ->
    nms dets t = Raise e -> e = ZeroDivisionError.
Proof.
  induction n as [|n IH]; intros dets e Hn H.
  { destruct dets; [done | simpl in Hn; lia]. }
  destruct dets as [|d rest]; [done|].
  rewrite nms_step in H.
  destruct (select_best_split d rest) as (before & after & Hl & Ho & _ & _).
  destruct (select_best d rest) as [best others]. simpl in Hl, Ho, H.
  rewrite remove_overlapping_filter in H.
  destruct (forallb (iou_defined best) others); simpl in H; [|congruence].
  destruct (nms (List.filter (below best t) others) t) as [kept|e'] eqn:E;
    [done|].
  simpl in H. injection H as <-. apply IH in E; [done|].
  pose proof (List.filter_length_le (below best t) others) as Hf.
  assert (Hlen : length (d :: rest) = length (before ++ best :: after))
    by (by rewrite Hl).
  rewrite Ho in Hf at 2. rewrite length_app in Hf, Hlen.
  simpl in Hn, Hlen. lia.
Qed.

Lemma decode_unfold output out orig_w orig_h conf_thres :
  output !! 0%nat = Some out ->
  decode_yolov11_persons output orig_w orig_h conf_thres
  = match decode_candidates out orig_w orig_h conf_thres with
    | None => Ok []
    | Some candidates => dets <- candidates ;; nms dets IOU_THRESH
    end.
Proof.
  intros H. unfold decode_yolov11_persons. by rewrite (index_ok _ _ _ H).
Qed.

(** What the decoder does on a tensor: nothing when the shape is wrong or
    no anchor survives, else [nms] of the surviving anchors' detections. *)
Lemma decode_cases output out orig_w orig_h conf_thres :
  output !! 0%nat = Some out ->
  let anchors := List.filter (survives out conf_thres) (seq 0 (shape1 out)) in
  decode_yolov11_persons output orig_w orig_h conf_thres = Ok []
  \/ (shape0 out = 84%nat
      /\ decode_yolov11_persons output orig_w orig_h conf_thres
         = nms (map (anchor_det out orig_w orig_h) anchors) IOU_THRESH).
Proof.
  intros H anchors. rewrite (decode_unfold _ _ _ _ _ H).
  destruct (decide (shape0 out = 84%nat)) as [Hs|Hs].
  - rewrite (decode_candidates_spec _ _ _ _ Hs). fold anchors.
    destruct anchors as [|a anchors'] eqn:E; [by left|].
    right. by split.
  - left. unfold decode_candidates.
    apply Nat.eqb_neq in Hs. by rewrite Hs.
Qed.

(** X10: the detections that the decoder returns have scores above the
    confidence threshold, in descending order; of two of them the IoU of
    the earlier with the later is below [IOU_THRESH]; and they are no more
    than the anchors. *)
Theorem decode_output (output : list Array2) (out : Array2)
    (orig_w orig_h : Z) (conf_thres : Q) (dets : list Det) :
  output !! 0%nat = Some out ->
  decode_yolov11_persons output orig_w orig_h conf_thres = Ok dets ->
  Forall (fun d => conf_thres < score d) dets
  /\ descending dets
  /\ ForallOrdPairs (passes IOU_THRESH) dets
  /\ (length dets <= shape1 out)%nat.
Proof.
  intros Hout Hd.
  destruct (decode_cases output out orig_w orig_h conf_thres Hout)
    as [H|[Hs H]]; rewrite H in Hd.
  { injection Hd as <-. split_and!; [done|constructor|constructor|simpl; lia]. }
  set (anchors := List.filter (survives out conf_thres) (seq 0 (shape1 out)))
    in Hd.
  apply (nms_greedy_aux _ (length _) _ _ (Nat.le_refl _)) in Hd.
  apply greedy_sublist in Hd as Hsub.
  split_and!.
  - rewrite Forall_forall. intros d Hin.
    apply (greedy_subset _ _ _ Hd), list_elem_of_In, List.in_map_iff in Hin
      as (a & <- & Ha).
    unfold anchors in Ha. apply List.filter_In in Ha as [_ Ha].
    by apply survives_spec in Ha as [_ Ha].
  - eapply descending_sublist; [exact Hsub | apply sorted_desc_descending].
  - by apply greedy_pairwise in Hd.
  - apply sublist_length in Hsub.
    rewrite (Permutation_length (sorted_desc_perm _)), length_map in Hsub.
    pose proof (List.filter_length_le (survives out conf_thres)
                  (seq 0 (shape1 out))) as Hf.
    rewrite length_seq in Hf. unfold anchors in Hsub. lia.
Qed.

Lemma scale_nonneg (orig input : Z) :
  (0 <= orig)%Z -> (0 < input)%Z -> 0 <= inject_Z orig / inject_Z input.
Proof.
  intros Ho Hi. rewrite Zle_Qle in Ho. rewrite Zlt_Qlt in Hi.
  change (inject_Z 0) with 0 in Ho, Hi.
  apply Qle_shift_div_l; lra.
Qed.

(** X11: when the frame size is not negative and no anchor has a negative
    width or height, the decoder returns a list: it does not raise. *)
Theorem decode_total (output : list Array2) (out : Array2)
    (orig_w orig_h : Z) (conf_thres : Q) :
  output !! 0%nat = Some out ->
  (0 <= orig_w)%Z -> (0 <= orig_h)%Z ->
  (forall a, (a < shape1 out)%nat -> 0 <= at2 out 2 a /\ 0 <= at2 out 3 a) ->
  exists dets, decode_yolov11_persons output orig_w orig_h conf_thres = Ok dets.
Proof.
  intros Hout Hw Hh Hpos.
  destruct (decode_cases output out orig_w orig_h conf_thres Hout)
    as [H|[Hs H]]; rewrite H; [by eexists|].
  eapply nms_total_aux; [reflexivity|].
  rewrite List.Forall_forall. intros d Hd.
  apply List.in_map_iff in Hd as (a & <- & Ha).
  apply List.filter_In in Ha as [Ha _]. apply in_seq in Ha.
  destruct (Hpos a ltac:(lia)) as [Hwa Hha].
  pose proof (scale_nonneg orig_w INPUT_W Hw eq_refl) as Hsx.
  pose proof (scale_nonneg orig_h INPUT_H Hh eq_refl) as Hsy.
  unfold well_formed, anchor_det, xyxy. simpl.
  assert (H2 : 0 <= at2 out 2 a / 2) by (apply Qle_shift_div_l; lra).
  assert (H3 : 0 <= at2 out 3 a / 2) by (apply Qle_shift_div_l; lra).
  split; nra.
Qed.

(** X12: when the decoder raises, either the batch is empty and the
    exception is the [IndexError] of [output[0]], or the tensor has 84
    attributes and the exception is a [ZeroDivisionError] of [nms]. *)
Theorem decode_raises (output : list Array2) (orig_w orig_h : Z)
    (conf_thres : Q) (e : exception) :
  decode_yolov11_persons output orig_w orig_h conf_thres = Raise e ->
  (output = [] /\ e = IndexError)
  \/ (exists out, output !! 0%nat = Some out /\ shape0 out = 84%nat
                  /\ e = ZeroDivisionError).
Proof.
  intros H. destruct output as [|out output].
  { left. split; [done|]. by injection H. }
  right. exists out. split; [done|].
  destruct (decode_cases (out :: output) out orig_w orig_h conf_thres eq_refl)
    as [H'|[Hs H']]; rewrite H' in H; [done|].
  split; [done|]. eapply nms_raise_aux; [reflexivity | exact H].
Qed.


(** ** Further properties of the id assignment *)

Lemma py_int_floor q : 0 <= q -> py_int q = Qfloor q.
Proof.
  destruct q as [n d]. unfold Qle. simpl. intros H.
  unfold py_int. simpl. apply Z.quot_div_nonneg; lia.
Qed.

Lemma py_int_nonneg q : 0 <= q -> (0 <= py_int q)%Z.
Proof.
  intros H. rewrite py_int_floor by done.
  change 0%Z with (Qfloor 0). by apply Qfloor_resp_le.
Qed.

Lemma py_int_le q m : 0 <= q -> q <= inject_Z m -> (py_int q <= m)%Z.
Proof.
  intros H0 Hm. rewrite py_int_floor by done.
  rewrite <- (Qfloor_Z m). by apply Qfloor_resp_le.
Qed.

Lemma py_int_mono a b : 0 <= a -> a <= b -> (py_int a <= py_int b)%Z.
Proof.
  intros H0 Hab. rewrite !py_int_floor by lra. by apply Qfloor_resp_le.
Qed.

Lemma clamp_nonneg bound v : 0 <= py_max 0 (py_min (inject_Z (bound - 1)) v).
Proof.
  destruct (py_max_spec 0 (py_min (inject_Z (bound - 1)) v))
    as [[? ->]|[? ->]]; lra.
Qed.

Lemma clamp_px_range bound v :
  (0 <= clamp_px bound v)%Z
  /\ ((1 <= bound)%Z -> (clamp_px bound v <= bound - 1)%Z).
Proof.
  unfold clamp_px. split; [apply py_int_nonneg, clamp_nonneg|].
  intros Hb. apply py_int_le; [apply clamp_nonneg|].
  assert (Hb' : 0 <= inject_Z (bound - 1)).
  { change 0 with (inject_Z 0). rewrite <- Zle_Qle. lia. }
  destruct (py_min_spec (inject_Z (bound - 1)) v) as [[? ->]|[? ->]];
    match goal with
    | |- context [py_max 0 ?x] =>
        destruct (py_max_spec 0 x) as [[? ->]|[? ->]]
    end; lra.
Qed.

Lemma clamp_px_mono bound u v :
  u <= v -> (clamp_px bound u <= clamp_px bound v)%Z.
Proof.
  intros Huv. unfold clamp_px. apply py_int_mono; [apply clamp_nonneg|].
  destruct (py_min_spec (inject_Z (bound - 1)) u) as [[? ->]|[? ->]],
           (py_min_spec (inject_Z (bound - 1)) v) as [[? ->]|[? ->]];
    repeat match goal with
    | |- context [py_max 0 ?x] =>
        destruct (py_max_spec 0 x) as [[? ->]|[? ->]]
    end; lra.
Qed.

Lemma locate_step orig_w orig_h st det :
  exists pp pb,
    locate orig_w orig_h st det
    = (st.1.1 ++ [pp], st.1.2 ++ [pb], (st.2 + 1)%Z)
    /\ located orig_w orig_h det pp pb.
Proof using Type*.
  destruct st as [[person_positions person_boxes] id_counter].
  unfold locate.
  destruct (deproject _ _ _) as [[X Y] Z0] eqn:E. simpl.
  eexists _, _. split; [reflexivity|].
  unfold located, clamp_px, clamp_index. simpl.
  split_and!; try reflexivity.
  eexists _, _. split_and!; try reflexivity. by rewrite E.
Qed.

Lemma locate_fold_located orig_w orig_h dets :
  forall person_positions person_boxes c,
  exists pps pbs,
    (fold_left (locate orig_w orig_h) dets
               (person_positions, person_boxes, c)).1
    = (person_positions ++ pps, person_boxes ++ pbs)
    /\ Forall3 (located orig_w orig_h) dets pps pbs.
Proof using Type*.
  induction dets as [|det dets IH]; intros person_positions person_boxes c.
  { exists [], []. simpl. rewrite !app_nil_r. split; [done | constructor]. }
  cbn [fold_left].
  destruct (locate_step orig_w orig_h (person_positions, person_boxes, c) det)
    as (pp & pb & -> & Hloc). simpl.
  destruct (IH (person_positions ++ [pp]) (person_boxes ++ [pb]) (c + 1)%Z)
    as (pps & pbs & -> & Hall).
  exists (pp :: pps), (pb :: pbs). rewrite <- !app_assoc.
  split; [done | by constructor].
Qed.

Lemma locate_all_located orig_w orig_h dets :
  Forall3 (located orig_w orig_h) dets
          (locate_all orig_w orig_h dets).1 (locate_all orig_w orig_h dets).2.
Proof using Type*.
  unfold locate_all.
  destruct (locate_fold_located orig_w orig_h dets [] [] 1%Z)
    as (pps & pbs & -> & H). done.
Qed.

Lemma Forall3_Forall_r {A B C} (P : A -> B -> C -> Prop) (R : C -> Prop)
    l k k' :
  (forall x y z, P x y z -> R z) -> Forall3 P l k k' -> Forall R k'.
Proof. intros H. induction 1; constructor; eauto. Qed.

Lemma Forall3_Forall2_mr {A B C} (P : A -> B -> C -> Prop)
    (R : B -> C -> Prop) l k k' :
  (forall x y z, P x y z -> R y z) -> Forall3 P l k k' -> Forall2 R k k'.
Proof. intros H. induction 1; constructor; eauto. Qed.

Lemma Forall3_Forall2_lr {A B C} (P : A -> B -> C -> Prop)
    (R : A -> C -> Prop) l k k' :
  (forall x y z, P x y z -> R x z) -> Forall3 P l k k' -> Forall2 R l k'.
Proof. intros H. induction 1; constructor; eauto. Qed.

(** X13: the corners of every person box are not negative, and they lie
    inside the frame when the frame has at least one row and column. *)
Theorem locate_in_image (orig_w orig_h : Z) (dets : list Det) :
  (1 <= orig_w)%Z -> (1 <= orig_h)%Z ->
  Forall (fun pb =>
            (0 <= pleft pb <= orig_w - 1)%Z /\ (0 <= pright pb <= orig_w - 1)%Z
            /\ (0 <= ptop pb <= orig_h - 1)%Z
            /\ (0 <= pbottom pb <= orig_h - 1)%Z)
         (locate_all orig_w orig_h dets).2.
Proof using Type*.
  intros Hw Hh.
  eapply Forall3_Forall_r; [|apply locate_all_located].
  intros det pp pb (-> & -> & -> & -> & _).
  pose proof (clamp_px_range orig_w (xmin (box det))) as [? ?].
  pose proof (clamp_px_range orig_w (xmax (box det))) as [? ?].
  pose proof (clamp_px_range orig_h (ymin (box det))) as [? ?].
  pose proof (clamp_px_range orig_h (ymax (box det))) as [? ?].
  split_and!; auto.
Qed.

(** X14: clamping and truncation keep the order of the corners: the box
    of a well-formed detection has [left <= right] and [top <= bottom]. *)
Theorem locate_well_formed (orig_w orig_h : Z) (dets : list Det) :
  Forall2 (fun det pb =>
             well_formed (box det) ->
             (pleft pb <= pright pb)%Z /\ (ptop pb <= pbottom pb)%Z)
          dets (locate_all orig_w orig_h dets).2.
Proof using Type*.
  eapply Forall3_Forall2_lr; [|apply locate_all_located].
  intros det pp pb (-> & -> & -> & -> & _) [Hx Hy].
  split; by apply clamp_px_mono.
Qed.

(** X15: when the depth image has at least one row and column, the depth
    of every person is read at a pixel inside the depth image, and the
    position with the same id is the deprojection of that pixel at that
    depth. *)
Theorem locate_depth_pixel (orig_w orig_h : Z) (dets : list Det) :
  (1 <= depth_rows)%Z -> (1 <= depth_cols)%Z ->
  Forall2 (fun pp pb =>
             pos_id pp = pid pb
             /\ exists cx cy,
                  (0 <= cx < depth_cols)%Z /\ (0 <= cy < depth_rows)%Z
                  /\ depth_m pb = inject_Z (depth_image cy cx) * depth_scale
                  /\ (pX pp, pY pp, pZ pp) = deproject cx cy (depth_m pb))
          (locate_all orig_w orig_h dets).1 (locate_all orig_w orig_h dets).2.
Proof using Type*.
  intros Hr Hc.
  eapply Forall3_Forall2_mr; [|apply locate_all_located].
  intros det pp pb (_ & _ & _ & _ & Hid & cx & cy & -> & -> & Hd & Hp).
  split; [done|]. eexists _, _.
  split; [|split; [|split; [exact Hd | exact Hp]]]; unfold clamp_index; lia.
Qed.


(** ** Further properties of the merge and of the distance check *)

Lemma unskipped_empty (l : list PersonBox) k :
  unskipped ∅ l k = take k l.
Proof.
  induction k as [|k IH]; [done|].
  rewrite unskipped_S, IH. rewrite decide_False by apply not_elem_of_empty.
  destruct (l !! k) as [pb|] eqn:E.
  - by rewrite (take_S_r l k pb E).
  - apply lookup_ge_None in E. rewrite app_nil_r, !take_ge by lia. done.
Qed.

Lemma merge_state_total (person_boxes : list PersonBox)
    (person_positions : list PersonPos) :
  length person_positions = length person_boxes ->
  exists merged skip,
    merge_state person_boxes person_positions = Ok (merged, skip)
    /\ merge person_boxes person_positions = Ok merged
    /\ merged = unskipped skip person_boxes (length person_boxes)
    /\ forall j, j ∈ skip <->
         exists i, (i < j < length person_boxes)%nat /\ (i ∉ skip)
                   /\ duplicate_of person_boxes person_positions i j = true.
Proof.
  intros Hlen.
  destruct (merge_outer_loop person_boxes person_positions Hlen
              (length person_boxes) ltac:(lia))
    as ([merged skip] & Hloop & Hm & Hskip).
  exists merged, skip. unfold merge, merge_state. rewrite Hloop.
  split_and!; try done.
  intros j. rewrite Hskip. split.
  - intros (i & ? & ? & ? & ?). by exists i.
  - intros (i & ? & ? & ?). exists i. split_and!; try done; lia.
Qed.

(** X16: the merge never drops the first candidate, and what it returns
    is a sublist of the candidates. *)
Theorem merge_keeps_first (pb : PersonBox) (person_boxes : list PersonBox)
    (person_positions : list PersonPos) :
  length person_positions = length (pb :: person_boxes) ->
  exists merged,
    merge (pb :: person_boxes) person_positions = Ok (pb :: merged)
    /\ pb :: merged `sublist_of` pb :: person_boxes.
Proof.
  intros Hlen.
  destruct (merge_state_total _ _ Hlen) as (merged & skip & _ & Hm & He & Hs).
  assert (H0 : 0%nat ∉ skip).
  { intros H. apply Hs in H as (i & ? & _). lia. }
  assert (Hhead : exists merged', merged = pb :: merged').
  { rewrite He. unfold unskipped. simpl. rewrite decide_False by done.
    simpl. eauto. }
  destruct Hhead as [merged' ->]. exists merged'. split; [done|].
  rewrite He. etrans; [apply unskipped_sublist | apply sublist_take].
Qed.

(** X17: when the merge logic holds for no pair of candidates, the merge
    returns the candidates as they are. *)
Theorem merge_separate_unchanged (person_boxes : list PersonBox)
    (person_positions : list PersonPos) :
  length person_positions = length person_boxes ->
  (forall i j pb1 pp1 pb2 pp2,
      (i < j)%nat ->
      person_boxes !! i = Some pb1 -> person_positions !! i = Some pp1 ->
      person_boxes !! j = Some pb2 -> person_positions !! j = Some pp2 ->
      merge_logic pb1 pp1 pb2 pp2 = Ok false) ->
  merge person_boxes person_positions = Ok person_boxes.
Proof.
  intros Hlen Hsep.
  destruct (merge_state_total _ _ Hlen) as (merged & skip & _ & Hm & He & Hs).
  assert (Hempty : skip = ∅).
  { apply set_eq. intros j. split; [|by intros ?%not_elem_of_empty].
    intros Hj. apply Hs in Hj as (i & Hij & _ & Hd). exfalso.
    unfold duplicate_of in Hd.
    destruct (person_boxes !! i) as [pb1|] eqn:E1; [|done].
    destruct (person_positions !! i) as [pp1|] eqn:E2; [|done].
    destruct (person_boxes !! j) as [pb2|] eqn:E3; [|done].
    destruct (person_positions !! j) as [pp2|] eqn:E4; [|done].
    rewrite (Hsep i j pb1 pp1 pb2 pp2) in Hd by (done || lia). done. }
  rewrite Hm, He, Hempty, unskipped_empty, take_ge by done. done.
Qed.

Lemma all_pairs_length (person_boxes : list PersonBox) k :
  (k <= length person_boxes)%nat ->
  (2 * length (flat_map (row_pairs person_boxes) (seq 0 k))
   <= k * (2 * length person_boxes - k - 1))%nat.
Proof.
  induction k as [|k IH]; intros Hk; [simpl; lia|].
  rewrite seq_S, flat_map_app, length_app. simpl. rewrite app_nil_r.
  specialize (IH ltac:(lia)).
  assert (length (row_pairs person_boxes k) <= length person_boxes - S k)%nat.
  { unfold row_pairs. rewrite length_map.
    etrans; [apply List.filter_length_le|]. by rewrite length_seq. }
  nia.
Qed.

(** X18: the distance check never raises; every alert carries the ids of
    two persons of the list and a distance below 0.8, and [n] persons give
    at most [n (n - 1) / 2] alerts. *)
Theorem close_pairs_alerts (person_boxes : list PersonBox) :
  exists alerts,
    close_pairs person_boxes = Ok alerts
    /\ Forall (fun al : Alert =>
                 al.1.1 ∈ map pid person_boxes
                 /\ al.1.2 ∈ map pid person_boxes /\ al.2 < 8 # 10) alerts
    /\ (2 * length alerts
        <= length person_boxes * (length person_boxes - 1))%nat.
Proof.
  destruct (pairs_outer_loop person_boxes (length person_boxes) ltac:(lia))
    as (alerts & Hloop & Hall).
  exists alerts. split_and!; [done| |].
  - rewrite Forall_forall. intros al Hal.
    apply list_elem_of_lookup in Hal as [k Hk].
    destruct (Forall2_lookup_l _ _ _ _ _ Hall Hk) as (p & Hp & Hat).
    apply list_elem_of_lookup_2, all_pairs_elem in Hp as (_ & _ & Hc).
    unfold close_at in Hc.
    assert (Hat' : alert_at person_boxes (p.1, p.2) = Some al)
      by (by destruct p).
    rewrite Hat' in Hc. unfold alert_at in Hat'. simpl in Hat'.
    destruct (person_boxes !! p.1) as [pb1|] eqn:E1; [|done].
    destruct (person_boxes !! p.2) as [pb2|] eqn:E2; [|done].
    injection Hat' as <-. simpl. apply Qltb_lt in Hc.
    split_and!; [| |done]; apply list_elem_of_In, List.in_map,
      list_elem_of_In; by eapply list_elem_of_lookup_2.
  - apply Forall2_length in Hall. rewrite Hall.
    pose proof (all_pairs_length person_boxes (length person_boxes)
                  ltac:(lia)) as H.
    replace (2 * length person_boxes - length person_boxes - 1)%nat
      with (length person_boxes - 1)%nat in H by lia. done.
Qed.


(** ** The frame as a whole, and what is drawn *)

(** The alerts, by membership. *)
Lemma close_pairs_elem (person_boxes : list PersonBox) :
  exists alerts,
    close_pairs person_boxes = Ok alerts
    /\ forall al, al ∈ alerts <->
         exists i j pb1 pb2,
           (i < j)%nat /\ person_boxes !! i = Some pb1
           /\ person_boxes !! j = Some pb2
           /\ norm_diff (center_point pb1) (center_point pb2) < 8 # 10
           /\ al = (pid pb1, pid pb2,
                    norm_diff (center_point pb1) (center_point pb2)).
Proof.
  destruct (pairs_outer_loop person_boxes (length person_boxes) ltac:(lia))
    as (alerts & Hloop & Hall).
  exists alerts. split; [done|]. intros al. split.
  - intros Hal. apply list_elem_of_lookup in Hal as [k Hk].
    destruct (Forall2_lookup_l _ _ _ _ _ Hall Hk) as ([i j] & Hp & Hat).
    apply list_elem_of_lookup_2, all_pairs_elem in Hp as (_ & Hij & Hc).
    simpl in Hij, Hc. unfold close_at in Hc. rewrite Hat in Hc.
    unfold alert_at in Hat. simpl in Hat.
    destruct (person_boxes !! i) as [pb1|] eqn:E1; [|done].
    destruct (person_boxes !! j) as [pb2|] eqn:E2; [|done].
    injection Hat as <-. apply Qltb_lt in Hc.
    exists i, j, pb1, pb2. split_and!; try done. lia.
  - intros (i & j & pb1 & pb2 & Hij & E1 & E2 & Hd & ->).
    assert (Hp : (i, j) ∈ flat_map (row_pairs person_boxes)
                              (seq 0 (length person_boxes))).
    { apply all_pairs_elem. simpl. apply lookup_lt_Some in E2 as Hj.
      split_and!; try lia. unfold close_at, alert_at. simpl.
      rewrite E1, E2. by apply Qltb_lt. }
    apply list_elem_of_lookup in Hp as [k Hk].
    destruct (Forall2_lookup_r _ _ _ _ _ Hall Hk) as (al & Hal & Hat).
    unfold alert_at in Hat. simpl in Hat. rewrite E1, E2 in Hat.
    injection Hat as <-. by eapply list_elem_of_lookup_2.
Qed.

Lemma StronglySorted_sublist {A} (R : A -> A -> Prop) (l k : list A) :
  k `sublist_of` l -> StronglySorted R l -> StronglySorted R k.
Proof.
  induction 1 as [|x k l Hs IH|x k l Hs IH]; intros Hl.
  - constructor.
  - apply StronglySorted_inv in Hl as [Hl Hx]. constructor; [by apply IH|].
    rewrite List.Forall_forall in Hx |- *. intros y Hy.
    apply Hx, list_elem_of_In. eapply elem_of_sublist; [|exact Hs].
    by apply list_elem_of_In.
  - apply StronglySorted_inv in Hl as [Hl _]. by apply IH.
Qed.

Lemma StronglySorted_lookup_lt {A} (R : A -> A -> Prop) (l : list A) i j x y :
  StronglySorted R l -> (i < j)%nat ->
  l !! i = Some x -> l !! j = Some y -> R x y.
Proof.
  intros Hl. revert i j. induction Hl as [|z l Hl IH Hz]; intros i j Hij Hi Hj.
  { by rewrite lookup_nil in Hi. }
  destruct j as [|j]; [lia|]. simpl in Hj. destruct i as [|i]; simpl in Hi.
  - injection Hi as <-. rewrite List.Forall_forall in Hz.
    apply Hz, list_elem_of_In. by eapply list_elem_of_lookup_2.
  - apply (IH i j); [lia | done | done].
Qed.

Lemma ids_sorted n : StronglySorted Z.lt (map Z.of_nat (seq 1 n)).
Proof.
  rewrite map_fmap. apply StronglySorted_fmap with (R1 := lt).
  - intros x y Hxy. lia.
  - apply seq_sorted.
Qed.

(** What the stages after the decoder do with its detections. *)
Lemma frame_after_decode (orig_w orig_h : Z) (dets : list Det) :
  exists person_positions person_boxes merged alerts,
    locate_all orig_w orig_h dets = (person_positions, person_boxes)
    /\ map pid person_boxes = map Z.of_nat (seq 1 (length dets))
    /\ merge person_boxes person_positions = Ok merged
    /\ merged `sublist_of` person_boxes
    /\ close_pairs merged = Ok alerts.
Proof using Type*.
  destruct (locate_fold orig_w orig_h dets [] [] 1)
    as (person_positions & person_boxes & Hfold & Hpos & Hids).
  change (Z.of_nat 1) with 1%Z in Hfold.
  assert (Hlen : length person_positions = length person_boxes).
  { rewrite <- (length_map pos_id), <- (length_map pid person_boxes).
    by rewrite Hpos, Hids. }
  destruct (merge_state_total _ _ Hlen) as (merged & skip & _ & Hm & He & _).
  destruct (close_pairs_elem merged) as (alerts & Hal & _).
  exists person_positions, person_boxes, merged, alerts.
  split_and!; try done.
  - unfold locate_all. by rewrite Hfold.
  - rewrite He. etrans; [apply unskipped_sublist | apply sublist_take].
Qed.

(** X19: a frame raises exactly when its decoder raises, with the same
    exception: the id assignment, the merge and the distance check never
    raise on what the decoder returns. *)
Theorem process_frame_raises (output : list Array2) (orig_w orig_h : Z)
    (e : exception) :
  process_frame output orig_w orig_h = Raise e
  <-> decode_yolov11_persons output orig_w orig_h CONF_THRESH = Raise e.
Proof using Type*.
  unfold process_frame.
  destruct (decode_yolov11_persons output orig_w orig_h CONF_THRESH)
    as [dets|e']; simpl; [|split; intros [= ->]; reflexivity].
  destruct (frame_after_decode orig_w orig_h dets)
    as (pps & pbs & merged & alerts & -> & _ & -> & _ & Hal).
  simpl. rewrite Hal. simpl. split; intros [=].
Qed.

(** X20: in the result of a frame the person ids are at least 1 and
    strictly ascending, and every alert names two persons of the result,
    the smaller id first, with a distance below 0.8. *)
Theorem process_frame_result (output : list Array2) (orig_w orig_h : Z)
    (persons : list PersonBox) (alerts : list Alert) :
  process_frame output orig_w orig_h = Ok (persons, alerts) ->
  StronglySorted Z.lt (map pid persons)
  /\ Forall (fun pb => (1 <= pid pb)%Z) persons
  /\ Forall (fun al : Alert =>
               (al.1.1 < al.1.2)%Z
               /\ al.1.1 ∈ map pid persons /\ al.1.2 ∈ map pid persons
               /\ al.2 < 8 # 10) alerts.
Proof using Type*.
  unfold process_frame.
  destruct (decode_yolov11_persons output orig_w orig_h CONF_THRESH)
    as [dets|e']; simpl; [|done].
  destruct (frame_after_decode orig_w orig_h dets)
    as (pps & pbs & merged & alerts' & -> & Hids & -> & Hsub & Hal).
  simpl. destruct (close_pairs_elem merged) as (alerts'' & Hal' & Helem).
  rewrite Hal' in Hal |- *. injection Hal as <-. simpl. intros [= <- <-].
  assert (Hsorted : StronglySorted Z.lt (map pid merged)).
  { apply StronglySorted_sublist with (map pid pbs).
    - rewrite !map_fmap. by apply fmap_sublist.
    - rewrite Hids. apply ids_sorted. }
  split_and!; [done| |].
  - rewrite Forall_forall. intros pb Hpb.
    assert (Hin : In (pid pb) (map pid pbs)).
    { apply List.in_map, list_elem_of_In. by eapply elem_of_sublist. }
    rewrite Hids in Hin. apply List.in_map_iff in Hin as (k & <- & Hk).
    apply in_seq in Hk. lia.
  - rewrite Forall_forall. intros al Hin.
    apply Helem in Hin as (i & j & pb1 & pb2 & Hij & E1 & E2 & Hd & ->).
    simpl. split_and!; [| | |done].
    + apply (StronglySorted_lookup_lt Z.lt (map pid merged) i j);
        [done | done | |]; by apply lookup_map_Some.
    + apply list_elem_of_In, List.in_map, list_elem_of_In.
      by eapply list_elem_of_lookup_2.
    + apply list_elem_of_In, List.in_map, list_elem_of_In.
      by eapply list_elem_of_lookup_2.
Qed.


(** *** Colours, warning lines and the FPS counter *)

Lemma box_color_fold close_pairs pid (c : Color) :
  fold_left (fun (color : Color) '(id1, id2, _) =>
               if (pid =? id1)%Z || (pid =? id2)%Z then (0, 0, 255)%Z
               else color) close_pairs c
  = if existsb (fun al : Alert => (pid =? al.1.1)%Z || (pid =? al.1.2)%Z)
               close_pairs
    then (0, 0, 255)%Z else c.
Proof.
  revert c. induction close_pairs as [|[[id1 id2] d] l IH]; intros c; [done|].
  simpl. rewrite IH.
  destruct ((pid =? id1)%Z || (pid =? id2)%Z); simpl; [|done].
  match goal with |- context [existsb ?f l] => by destruct (existsb f l) end.
Qed.

Lemma box_color_red close_pairs pid :
  box_color close_pairs pid = (0, 0, 255)%Z
  <-> exists al : Alert, al ∈ close_pairs /\ (pid = al.1.1 \/ pid = al.1.2).
Proof.
  unfold box_color. rewrite box_color_fold.
  destruct (existsb _ close_pairs) eqn:E.
  - split; [intros _|done].
    apply existsb_exists in E as (al & Hal & H).
    exists al. split; [by apply list_elem_of_In|].
    apply orb_true_iff in H as [H|H]; apply Z.eqb_eq in H; auto.
  - split; [done|]. intros (al & Hal & H). exfalso.
    assert (existsb (fun al : Alert => (pid =? al.1.1)%Z || (pid =? al.1.2)%Z)
                    close_pairs = true); [|congruence].
    apply existsb_exists. exists al. split; [by apply list_elem_of_In|].
    apply orb_true_iff. destruct H as [->| ->]; rewrite Z.eqb_refl; auto.
Qed.

Lemma draw_boxes_fold person_boxes close_pairs drawn :
  fold_left (fun drawn pb =>
               let color := box_color close_pairs (pid pb) in
               drawn ++ [mkDrawn (pleft pb, ptop pb) (pright pb, pbottom pb)
                                 color 2 (pid pb) (depth_m pb)
                                 (pleft pb, (ptop pb - 10)%Z)])
            person_boxes drawn
  = drawn ++ map (fun pb =>
                    mkDrawn (pleft pb, ptop pb) (pright pb, pbottom pb)
                            (box_color close_pairs (pid pb)) 2 (pid pb)
                            (depth_m pb) (pleft pb, (ptop pb - 10)%Z))
                 person_boxes.
Proof.
  revert drawn. induction person_boxes as [|pb l IH]; intros drawn; simpl.
  - by rewrite app_nil_r.
  - by rewrite IH, <- app_assoc.
Qed.

(** X21: every person gets one rectangle, from its top left to its bottom
    right corner and in list order; it is red when the person's id is in
    some alert and green otherwise. *)
Theorem draw_boxes_colors (person_boxes : list PersonBox)
    (close_pairs : list Alert) :
  Forall2 (fun pb dr =>
             rect_from dr = (pleft pb, ptop pb)
             /\ rect_to dr = (pright pb, pbottom pb)
             /\ label_id dr = pid pb
             /\ ((exists al : Alert,
                    al ∈ close_pairs /\ (pid pb = al.1.1 \/ pid pb = al.1.2))
                 -> rect_color dr = (0, 0, 255)%Z)
             /\ (~ (exists al : Alert,
                      al ∈ close_pairs
                      /\ (pid pb = al.1.1 \/ pid pb = al.1.2))
                 -> rect_color dr = (0, 255, 0)%Z))
          person_boxes (draw_boxes person_boxes close_pairs).
Proof.
  unfold draw_boxes. rewrite draw_boxes_fold. simpl.
  induction person_boxes as [|pb l IH]; constructor; [|done].
  simpl. split_and!; try done.
  - by intros H%box_color_red.
  - intros H. unfold box_color. rewrite box_color_fold.
    destruct (existsb _ close_pairs) eqn:E; [|done]. exfalso. apply H.
    apply existsb_exists in E as (al & Hal & Hor).
    exists al. split; [by apply list_elem_of_In|].
    apply orb_true_iff in Hor as [Hor|Hor]; apply Z.eqb_eq in Hor; auto.
Qed.

(** X22: when the ids are distinct, a person is drawn red exactly when
    another person of the list is less than 0.8 away. *)
Theorem red_iff_too_close (person_boxes : list PersonBox)
    (alerts : list Alert) (k : nat) (pb : PersonBox) :
  NoDup (map pid person_boxes) ->
  close_pairs person_boxes = Ok alerts ->
  person_boxes !! k = Some pb ->
  box_color alerts (pid pb) = (0, 0, 255)%Z
  <-> exists j pb',
        person_boxes !! j = Some pb'
        /\ (((k < j)%nat
             /\ norm_diff (center_point pb) (center_point pb') < 8 # 10)
            \/ ((j < k)%nat
                /\ norm_diff (center_point pb') (center_point pb) < 8 # 10)).
Proof.
  intros Hnd Hal Hk.
  destruct (close_pairs_elem person_boxes) as (alerts' & Hal' & Helem).
  rewrite Hal in Hal'. injection Hal' as <-.
  assert (Hsame : forall i pbi, person_boxes !! i = Some pbi ->
                                pid pb = pid pbi -> i = k).
  { intros i pbi Hi Hid.
    apply (NoDup_lookup (map pid person_boxes) i k (pid pb)); [done| |].
    - rewrite Hid. by apply lookup_map_Some.
    - by apply lookup_map_Some. }
  rewrite box_color_red. split.
  - intros (al & Hin & Hor).
    apply Helem in Hin as (i & j & pb1 & pb2 & Hij & E1 & E2 & Hd & ->).
    simpl in Hor. destruct Hor as [Hid|Hid].
    + pose proof (Hsame i pb1 E1 Hid) as ->.
      rewrite Hk in E1. injection E1 as <-.
      exists j, pb2. split; [done|]. left. done.
    + pose proof (Hsame j pb2 E2 Hid) as ->.
      rewrite Hk in E2. injection E2 as <-.
      exists i, pb1. split; [done|]. right. done.
  - intros (j & pb' & Hj & [[Hlt Hd]|[Hlt Hd]]).
    + exists (pid pb, pid pb',
              norm_diff (center_point pb) (center_point pb')).
      split; [|left; done]. apply Helem.
      exists k, j, pb, pb'. done.
    + exists (pid pb', pid pb,
              norm_diff (center_point pb') (center_point pb)).
      split; [|right; done]. apply Helem.
      exists j, k, pb', pb. done.
Qed.

Lemma draw_warnings_fold close_pairs texts y :
  fold_left warning_body close_pairs (texts, y)
  = (texts ++ imap (fun k al => (50, y + 40 * Z.of_nat k, al)%Z) close_pairs,
     (y + 40 * Z.of_nat (length close_pairs))%Z).
Proof.
  revert texts y. induction close_pairs as [|al l IH]; intros texts y.
  { simpl. rewrite app_nil_r. do 2 f_equal. lia. }
  change (fold_left warning_body (al :: l) (texts, y))
    with (fold_left warning_body l (texts ++ [(50%Z, y, al)], (y + 40)%Z)).
  rewrite IH.
  rewrite <- app_assoc, imap_cons. simpl app.
  replace (y + 40 * Z.of_nat 0)%Z with y by lia.
  replace (y + 40 * Z.of_nat (length (al :: l)))%Z
    with (y + 40 + 40 * Z.of_nat (length l))%Z by (simpl length; lia).
  do 3 f_equal. apply imap_ext. intros k x _. simpl.
  do 2 f_equal. lia.
Qed.

(** X23: the warning of the [k]-th alert is written at
    [(50, 80 + 40 k)]: one line per alert, in order, 40 pixels apart. *)
Theorem draw_warnings_lines (close_pairs : list Alert) :
  draw_warnings close_pairs
  = imap (fun k al => (50, 80 + 40 * Z.of_nat k, al)%Z) close_pairs.
Proof.
  unfold draw_warnings. by rewrite draw_warnings_fold.
Qed.

Lemma fps_of_positive prev_time curr_time :
  0 < prev_time -> prev_time < curr_time ->
  exists fps, fps_of prev_time curr_time = Ok fps
              /\ 0 < fps /\ fps * (curr_time - prev_time) == 1.
Proof.
  intros Hp Hc. unfold fps_of.
  destruct (Qeq_bool prev_time 0) eqn:E.
  { apply Qeq_bool_iff in E. lra. }
  rewrite py_div_ok by lra. eexists. split_and!; [done| |].
  - apply Qlt_shift_div_l; lra.
  - field. lra.
Qed.

Lemma fps_loop times :
  forall prev_time shown,
    0 < prev_time -> StronglySorted Qlt (prev_time :: times) ->
    exists last more,
      for_each fps_frame times (prev_time, shown) = Ok (last, shown ++ more)
      /\ Forall2 (fun fps tt => 0 < fps /\ fps * (tt.2 - tt.1) == 1)
                 more (zip (prev_time :: times) times).
Proof.
  induction times as [|t times IH]; intros prev_time shown Hp Hs.
  { exists prev_time, []. split; [by rewrite app_nil_r | constructor]. }
  apply StronglySorted_inv in Hs as [Hs Hlt].
  apply Forall_cons_1 in Hlt as [Hlt _].
  destruct (fps_of_positive prev_time t Hp Hlt) as (fps & Hf & H0 & H1).
  simpl. rewrite Hf. simpl.
  destruct (IH t (shown ++ [fps]) ltac:(lra) Hs) as (last & more & -> & Hall).
  exists last, (fps :: more). rewrite <- app_assoc.
  split; [done|]. by constructor.
Qed.

(** X24: when the time stamps of the frames are positive and strictly
    increasing, the FPS computation never raises: it shows 0 for the first
    frame and [1 / (t' - t)] for every later frame at [t'] after [t]. *)
Theorem fps_run_increasing (t0 : Q) (times : list Q) :
  0 < t0 -> StronglySorted Qlt (t0 :: times) ->
  exists last shown,
    fps_run (t0 :: times) = Ok (last, 0 :: shown)
    /\ Forall2 (fun fps tt => 0 < fps /\ fps * (tt.2 - tt.1) == 1)
               shown (zip (t0 :: times) times).
Proof.
  intros H0 Hs. unfold fps_run. simpl.
  destruct (fps_loop times t0 [0] H0 Hs) as (last & more & -> & Hall).
  by exists last, more.
Qed.

(** X25: the FPS computation raises exactly when a frame has the time
    stamp of the frame before it, other than 0: it divides by zero. *)
Theorem fps_of_raises (prev_time curr_time : Q) (e : exception) :
  fps_of prev_time curr_time = Raise e
  <-> e = ZeroDivisionError /\ ~ prev_time == 0 /\ curr_time == prev_time.
Proof.
  unfold fps_of, py_div.
  destruct (Qeq_bool prev_time 0) eqn:E.
  { apply Qeq_bool_iff in E. split; [done|]. by intros (_ & H & _). }
  apply Qeq_bool_neq in E.
  destruct (Qeq_bool (curr_time - prev_time) 0) eqn:E'.
  - apply Qeq_bool_iff in E'. split.
    + intros [= <-]. split_and!; [done | done | lra].
    + by intros (-> & _).
  - apply Qeq_bool_neq in E'. split; [done|].
    intros (_ & _ & H). lra.
Qed.


(** ** Preprocessing *)

(** X27: when [cv.resize] returns a [uint8] image of the requested size
    with three channels, the tensor handed to the engine has the shape
    [(1, 3, INPUT_H, INPUT_W)], and at every index of that shape its entry
    lies in [0, 1] and is the entry of channel [2 - c] of the resized frame
    divided by 255. *)
Theorem preprocess_tensor (resize : Image -> Z * Z -> Image) (frame : Image) :
  let img := resize frame (INPUT_W, INPUT_H) in
  img_rows img = Z.to_nat INPUT_H -> img_cols img = Z.to_nat INPUT_W ->
  img_chans img = 3%nat ->
  (forall y x c, (y < img_rows img)%nat -> (x < img_cols img)%nat ->
                 (c < img_chans img)%nat -> (0 <= img_px img y x c <= 255)%Z) ->
  a4_shape (preprocess resize frame) = (1, 3, 640, 640)%nat
  /\ forall n c y x,
       (n < 1)%nat -> (c < 3)%nat -> (y < 640)%nat -> (x < 640)%nat ->
       a4_at (preprocess resize frame) n c y x
       = inject_Z (img_px img y x (2 - c)) / 255
       /\ 0 <= a4_at (preprocess resize frame) n c y x <= 1.
Proof.
  intros img Hr Hc Hch Hpx. unfold preprocess. fold img.
  unfold expand_dims_0, transpose_201, normalize, cvtColor_BGR2RGB. simpl.
  rewrite Hr, Hc, Hch. split; [reflexivity|].
  intros n c y x _ Hc3 Hy Hx. split; [reflexivity|].
  destruct (Hpx y x (2 - c)%nat) as [H0 H1].
  { rewrite Hr. exact Hy. }
  { rewrite Hc. exact Hx. }
  { rewrite Hch. lia. }
  rewrite Zle_Qle in H0, H1.
  change (inject_Z 0) with 0 in H0. change (inject_Z 255) with 255 in H1.
  split; [apply Qle_shift_div_l | apply Qle_shift_div_r]; lra.
Qed.

End Frame.

(** ** Concrete runs *)

Lemma merge_rule_witness :
  length cand_positions = length cand_boxes
  /\ exists merged skip,
       merge_state demo_sqrt cand_boxes cand_positions = Ok (merged, skip)
       /\ merge demo_sqrt cand_boxes cand_positions = Ok merged
       /\ merged = unskipped skip cand_boxes (length cand_boxes)
       /\ forall j, j ∈ skip <->
            exists i pb1 pp1 pb2 pp2 iou,
              (i < j)%nat /\ (i ∉ skip)
              /\ cand_boxes !! i = Some pb1 /\ cand_positions !! i = Some pp1
              /\ cand_boxes !! j = Some pb2 /\ cand_positions !! j = Some pp2
              /\ compute_iou (box_of pb1) (box_of pb2) = Ok iou
              /\ ((25 # 100 < iou /\ dist3d demo_sqrt pp1 pp2 < 35 # 100)
                  \/ pixel_dist demo_sqrt pb1 pb2 < 140).
Proof.
  split; [reflexivity|].
  apply (merge_rule demo_sqrt cand_boxes cand_positions). reflexivity.
Defined.

(** The second candidate is merged into the first, the third stays. *)
Example merge_candidates :
  merge demo_sqrt cand_boxes cand_positions
  = Ok [mkPersonBox 1 0 0 1000 400 2; mkPersonBox 3 20 500 120 700 4].
Proof. vm_compute. reflexivity. Qed.

(** No overlap and 2 m apart, but the box centres are 50 pixels apart: one
    candidate remains.  Without any of the three conditions both remain. *)
Example merge_near_centres :
  merge demo_sqrt
    [mkPersonBox 1 0 0 40 40 1; mkPersonBox 2 50 0 90 40 3]
    [mkPersonPos 1 0 0 1; mkPersonPos 2 0 0 3]
  = Ok [mkPersonBox 1 0 0 40 40 1].
Proof. vm_compute. reflexivity. Qed.

Example merge_separate :
  merge demo_sqrt
    [mkPersonBox 1 0 0 40 40 1; mkPersonBox 2 500 0 540 40 3]
    [mkPersonPos 1 0 0 1; mkPersonPos 2 0 0 3]
  = Ok [mkPersonBox 1 0 0 40 40 1; mkPersonBox 2 500 0 540 40 3].
Proof. vm_compute. reflexivity. Qed.

(** The merge is not transitive: 1 absorbs 2, and 3 (close to 2 only)
    stays. *)
Example merge_chain :
  merge demo_sqrt
    [mkPersonBox 1 0 0 40 40 1; mkPersonBox 2 100 0 140 40 1;
     mkPersonBox 3 200 0 240 40 1]
    [mkPersonPos 1 0 0 1; mkPersonPos 2 5 0 1; mkPersonPos 3 9 0 1]
  = Ok [mkPersonBox 1 0 0 40 40 1; mkPersonBox 3 200 0 240 40 1].
Proof. vm_compute. reflexivity. Qed.

(** Two persons at (0, 0, 0) and (0, 0, 0.5) give one alert with the
    distance 0.5; at distance 1 there is none.  A person can be in two
    alerts. *)
Example close_pairs_half_metre :
  close_pairs demo_deproject demo_sqrt
    [mkPersonBox 1 600 300 680 420 0; mkPersonBox 2 600 300 680 420 (1 # 2)]
  = Ok [(1%Z, 2%Z, 500000 # 1000000)].
Proof. vm_compute. reflexivity. Qed.

Example close_pairs_one_metre :
  close_pairs demo_deproject demo_sqrt
    [mkPersonBox 1 600 300 680 420 0; mkPersonBox 2 600 300 680 420 1]
  = Ok [].
Proof. vm_compute. reflexivity. Qed.

Example close_pairs_shared_person :
  exists d12 d23,
    close_pairs demo_deproject demo_sqrt
      [mkPersonBox 1 600 300 680 420 1; mkPersonBox 2 600 300 680 420 (3 # 2);
       mkPersonBox 3 600 300 680 420 2]
    = Ok [(1%Z, 2%Z, d12); (2%Z, 3%Z, d23)].
Proof. eexists _, _. vm_compute. reflexivity. Qed.

Lemma nms_greedy_witness :
  Forall (fun d => well_formed (box d)) [detA; detB; detC]
  /\ (nms [detA; detB; detC] IOU_THRESH = Ok [detA; detC]
      <-> greedy IOU_THRESH [detA; detB; detC] [detA; detC])
  /\ exists keep, nms [detA; detB; detC] IOU_THRESH = Ok keep.
Proof.
  assert (Hwf : Forall (fun d => well_formed (box d)) [detA; detB; detC]).
  { repeat constructor; simpl; lra. }
  split; [exact Hwf|].
  split; [apply (nms_greedy [detA; detB; detC] IOU_THRESH)|].
  apply (nms_greedy [detA; detB; detC] IOU_THRESH). exact Hwf.
Defined.

Lemma decode_box_transform_witness :
  [tensor_one] !! 0%nat = Some tensor_one
  /\ shape0 tensor_one = 84%nat
  /\ let anchors :=
       List.filter (survives tensor_one CONF_THRESH)
                   (seq 0 (shape1 tensor_one)) in
     (forall a, a ∈ anchors <->
        (a < shape1 tensor_one)%nat
        /\ (forall c, (c < 80)%nat
                      -> at2 tensor_one (4 + c) a <= at2 tensor_one 4 a)
        /\ CONF_THRESH < at2 tensor_one 4 a)
     /\ (anchors <> [] ->
         decode_candidates tensor_one 1280 720 CONF_THRESH
         = Some (Ok (map (fun a => mkDet (xyxy tensor_one 1280 720 a)
                                         (at2 tensor_one 4 a)) anchors)))
     /\ (forall dets d,
           decode_yolov11_persons [tensor_one] 1280 720 CONF_THRESH = Ok dets ->
           d ∈ dets ->
           exists a, a ∈ anchors /\ box d = xyxy tensor_one 1280 720 a
                     /\ score d = at2 tensor_one 4 a).
Proof.
  split; [reflexivity|]. split; [reflexivity|].
  apply (decode_box_transform [tensor_one] tensor_one 1280 720 CONF_THRESH);
    reflexivity.
Defined.

(** The anchor [(320, 240, 100, 200)] of a 640 x 640 input becomes the box
    [(540, 157.5, 740, 382.5)] of a 1280 x 720 frame. *)
Example decode_one_anchor :
  exists d, decode_yolov11_persons [tensor_one] 1280 720 CONF_THRESH = Ok [d]
            /\ xmin (box d) == 540 /\ ymin (box d) == 315 # 2
            /\ xmax (box d) == 740 /\ ymax (box d) == 765 # 2
            /\ score d == 9 # 10.
Proof. eexists. split; [vm_compute; reflexivity|]. repeat split. Qed.

Lemma empty_propagates_witness :
  [tensor_none] !! 0%nat = Some tensor_none
  /\ (forall a, (a < shape1 tensor_none)%nat
                -> survives tensor_none CONF_THRESH a = false)
  /\ decode_yolov11_persons [tensor_none] 1280 720 CONF_THRESH = Ok []
  /\ nms [] IOU_THRESH = Ok []
  /\ locate_all 720 1280 demo_depth (1 # 1000) demo_deproject 1280 720 []
     = ([], [])
  /\ merge demo_sqrt [] [] = Ok []
  /\ close_pairs demo_deproject demo_sqrt [] = Ok [].
Proof.
  split; [reflexivity|]. split; [intros a _; reflexivity|].
  apply (empty_propagates 720 1280 demo_depth (1 # 1000) demo_deproject
           demo_sqrt [tensor_none] tensor_none 1280 720 CONF_THRESH
           IOU_THRESH); [reflexivity | intros a _; reflexivity].
Defined.

Lemma argmax_tie_break_witness :
  shape0 tensor_tie = 84%nat /\ (0 < shape1 tensor_tie)%nat
  /\ let scores := transpose (rows_from tensor_tie 4) in
     let cls_ids := argmax_axis1 scores in
     let cls_scores := max_axis1 scores in
     (exists k, cls_ids !! 0%nat = Some k /\ (k < 80)%nat
        /\ (forall c, (c < 80)%nat
                      -> at2 tensor_tie (4 + c) 0 <= at2 tensor_tie (4 + k) 0)
        /\ (forall c, (c < k)%nat
                      -> at2 tensor_tie (4 + c) 0 < at2 tensor_tie (4 + k) 0))
     /\ ((forall c, (c < 80)%nat
                    -> at2 tensor_tie (4 + c) 0 <= at2 tensor_tie 4 0) ->
         cls_ids !! 0%nat = Some PERSON_CLASS_ID
         /\ person_mask cls_ids cls_scores CONF_THRESH !! 0%nat
            = Some (Qltb CONF_THRESH (at2 tensor_tie 4 0))).
Proof.
  split; [reflexivity|]. split; [simpl; lia|].
  apply (argmax_tie_break tensor_tie CONF_THRESH 0);
    [reflexivity | simpl; lia].
Defined.

(** Class 7 has the score of the person class; the anchor is a person. *)
Example tie_is_person :
  argmax_axis1 (transpose (rows_from tensor_tie 4)) = [PERSON_CLASS_ID]
  /\ at2 tensor_tie (4 + 7) 0 == at2 tensor_tie 4 0.
Proof. split; reflexivity. Qed.

(** A whole frame: two persons 2 m apart give two persons and no alert;
    at a depth of 0.3 m they are 0.3 m apart and give one alert. *)
Example frame_two_apart :
  exists p1 p2,
    process_frame 720 1280 demo_depth (1 # 1000) demo_deproject demo_sqrt
                  [tensor_two] 1280 720
    = Ok ([p1; p2], [])
    /\ pid p1 = 1%Z /\ pid p2 = 2%Z.
Proof. eexists _, _. split; [vm_compute; reflexivity|]. split; reflexivity. Qed.

Example frame_two_close :
  exists p1 p2 d,
    process_frame 720 1280 (fun _ _ => 300%Z) (1 # 1000) demo_deproject
                  demo_sqrt [tensor_two] 1280 720
    = Ok ([p1; p2], [(1%Z, 2%Z, d)])
    /\ d == 3 # 10.
Proof. eexists _, _, _. split; [vm_compute; reflexivity|]. reflexivity. Qed.

(** ** Concrete runs of the further properties *)

Lemma compute_iou_range_witness :
  well_formed box10 /\ well_formed (box detB)
  /\ exists v, compute_iou box10 (box detB) = Ok v /\ 0 <= v /\ v < 1.
Proof.
  assert (Ha : well_formed box10) by (split; simpl; lra).
  assert (Hb : well_formed (box detB)) by (split; simpl; lra).
  split; [exact Ha|]. split; [exact Hb|].
  apply (compute_iou_range box10 (box detB) Ha Hb).
Defined.

Lemma compute_iou_overlap_witness :
  well_formed box10 /\ well_formed (box detC)
  /\ exists v, compute_iou box10 (box detC) = Ok v
       /\ (xmax box10 <= xmin (box detC) \/ xmax (box detC) <= xmin box10
           \/ ymax box10 <= ymin (box detC) \/ ymax (box detC) <= ymin box10
           -> v == 0)
       /\ (xmin box10 < xmax box10 -> ymin box10 < ymax box10 ->
           xmin (box detC) < xmax (box detC) ->
           ymin (box detC) < ymax (box detC) ->
           xmin box10 < xmax (box detC) -> xmin (box detC) < xmax box10 ->
           ymin box10 < ymax (box detC) -> ymin (box detC) < ymax box10 ->
           0 < v).
Proof.
  assert (Ha : well_formed box10) by (split; simpl; lra).
  assert (Hb : well_formed (box detC)) by (split; simpl; lra).
  split; [exact Ha|]. split; [exact Hb|].
  apply (compute_iou_overlap box10 (box detC) Ha Hb).
Defined.

Lemma compute_iou_integral_witness :
  integral_box box10 /\ integral_box (mkBox 7 9 3 (-2))
  /\ exists v, compute_iou box10 (mkBox 7 9 3 (-2)) = Ok v.
Proof.
  assert (Ha : integral_box box10).
  { repeat split; simpl; [exists 0%Z|exists 0%Z|exists 10%Z|exists 10%Z];
      reflexivity. }
  assert (Hb : integral_box (mkBox 7 9 3 (-2))).
  { repeat split; simpl; [exists 7%Z|exists 9%Z|exists 3%Z|exists (-2)%Z];
      reflexivity. }
  split; [exact Ha|]. split; [exact Hb|].
  apply (compute_iou_integral box10 (mkBox 7 9 3 (-2)) Ha Hb).
Defined.

Lemma nms_sorted_sublist_witness :
  nms [detB; detC; detA] IOU_THRESH = Ok [detA; detC]
  /\ exists sorted,
       sorted ≡ₚ [detB; detC; detA] /\ descending sorted
       /\ [detA; detC] `sublist_of` sorted
       /\ descending [detA; detC]
       /\ (length [detA; detC] <= length [detB; detC; detA])%nat.
Proof.
  split; [reflexivity|].
  apply (nms_sorted_sublist [detB; detC; detA] IOU_THRESH [detA; detC]).
  reflexivity.
Defined.

Lemma nms_no_overlap_witness :
  nms [detB; detC; detA] IOU_THRESH = Ok [detA; detC]
  /\ forall i j k k', (i < j)%nat ->
       [detA; detC] !! i = Some k -> [detA; detC] !! j = Some k' ->
       exists v, compute_iou (box k) (box k') = Ok v /\ v < IOU_THRESH.
Proof.
  split; [reflexivity|].
  apply (nms_no_overlap [detB; detC; detA] IOU_THRESH [detA; detC]).
  reflexivity.
Defined.

Lemma nms_covers_witness :
  nms [detB; detC; detA] IOU_THRESH = Ok [detA; detC]
  /\ forall d, d ∈ [detB; detC; detA] ->
       d ∈ [detA; detC]
       \/ exists k v, k ∈ [detA; detC] /\ score d <= score k
                      /\ compute_iou (box k) (box d) = Ok v
                      /\ IOU_THRESH <= v.
Proof.
  split; [reflexivity|].
  apply (nms_covers [detB; detC; detA] IOU_THRESH [detA; detC]).
  reflexivity.
Defined.

Lemma nms_idempotent_witness :
  nms [detB; detC; detA] IOU_THRESH = Ok [detA; detC]
  /\ nms [detA; detC] IOU_THRESH = Ok [detA; detC].
Proof.
  split; [reflexivity|].
  apply (nms_idempotent [detB; detC; detA] IOU_THRESH [detA; detC]).
  reflexivity.
Defined.

Lemma nms_threshold_one_witness :
  1 <= 1 /\ Forall (fun d => well_formed (box d)) [detB; detC; detA]
  /\ exists keep, nms [detB; detC; detA] 1 = Ok keep
                  /\ keep ≡ₚ [detB; detC; detA] /\ descending keep.
Proof.
  assert (Hwf : Forall (fun d => well_formed (box d)) [detB; detC; detA]).
  { repeat constructor; simpl; lra. }
  split; [lra|]. split; [exact Hwf|].
  apply (nms_threshold_one [detB; detC; detA] 1); [lra | exact Hwf].
Defined.

Lemma nms_threshold_zero_witness :
  0 <= 0 /\ Forall (fun d => well_formed (box d)) [detB; detC; detA]
  /\ exists best,
       nms [detB; detC; detA] 0 = Ok [best] /\ best ∈ [detB; detC; detA]
       /\ Forall (fun x => score x <= score best) [detB; detC; detA].
Proof.
  assert (Hwf : Forall (fun d => well_formed (box d)) [detB; detC; detA]).
  { repeat constructor; simpl; lra. }
  split; [lra|]. split; [exact Hwf|].
  apply (nms_threshold_zero detB [detC; detA] 0); [lra | exact Hwf].
Defined.

Lemma decode_output_witness :
  exists dets,
    [tensor_two] !! 0%nat = Some tensor_two
    /\ decode_yolov11_persons [tensor_two] 1280 720 CONF_THRESH = Ok dets
    /\ Forall (fun d => CONF_THRESH < score d) dets
    /\ descending dets
    /\ ForallOrdPairs (passes IOU_THRESH) dets
    /\ (length dets <= shape1 tensor_two)%nat.
Proof.
  destruct (decode_yolov11_persons [tensor_two] 1280 720 CONF_THRESH)
    as [dets|e] eqn:E; [|vm_compute in E; discriminate].
  exists dets. split; [reflexivity|]. split; [reflexivity|].
  apply (decode_output [tensor_two] tensor_two 1280 720 CONF_THRESH dets);
    [reflexivity | exact E].
Defined.

Lemma decode_total_witness :
  [tensor_two] !! 0%nat = Some tensor_two
  /\ (0 <= 1280)%Z /\ (0 <= 720)%Z
  /\ (forall a, (a < shape1 tensor_two)%nat ->
        0 <= at2 tensor_two 2 a /\ 0 <= at2 tensor_two 3 a)
  /\ exists dets,
       decode_yolov11_persons [tensor_two] 1280 720 CONF_THRESH = Ok dets.
Proof.
  assert (Hpos : forall a, (a < shape1 tensor_two)%nat ->
                   0 <= at2 tensor_two 2 a /\ 0 <= at2 tensor_two 3 a).
  { intros a _. simpl. split; lra. }
  split; [reflexivity|]. split; [lia|]. split; [lia|]. split; [exact Hpos|].
  apply (decode_total [tensor_two] tensor_two 1280 720 CONF_THRESH);
    [reflexivity | lia | lia | exact Hpos].
Defined.

Lemma decode_raises_witness :
  decode_yolov11_persons [] 1280 720 CONF_THRESH = Raise IndexError
  /\ (([] : list Array2) = [] /\ IndexError = IndexError
      \/ exists out, ([] : list Array2) !! 0%nat = Some out
                     /\ shape0 out = 84%nat
                     /\ IndexError = ZeroDivisionError).
Proof.
  split; [reflexivity|].
  apply (decode_raises [] 1280 720 CONF_THRESH IndexError). reflexivity.
Defined.

Lemma locate_in_image_witness :
  (1 <= 1280)%Z /\ (1 <= 720)%Z
  /\ Forall (fun pb =>
               (0 <= pleft pb <= 1280 - 1)%Z /\ (0 <= pright pb <= 1280 - 1)%Z
               /\ (0 <= ptop pb <= 720 - 1)%Z
               /\ (0 <= pbottom pb <= 720 - 1)%Z)
            (locate_all 720 1280 demo_depth (1 # 1000) demo_deproject
                        1280 720 [detA; detB; detC]).2.
Proof.
  split; [lia|]. split; [lia|].
  apply (locate_in_image 720 1280 demo_depth (1 # 1000) demo_deproject
           1280 720 [detA; detB; detC]); lia.
Defined.

Lemma locate_depth_pixel_witness :
  (1 <= 720)%Z /\ (1 <= 1280)%Z
  /\ Forall2 (fun pp pb =>
                pos_id pp = pid pb
                /\ exists cx cy,
                     (0 <= cx < 1280)%Z /\ (0 <= cy < 720)%Z
                     /\ depth_m pb = inject_Z (demo_depth cy cx) * (1 # 1000)
                     /\ (pX pp, pY pp, pZ pp)
                        = demo_deproject cx cy (depth_m pb))
       (locate_all 720 1280 demo_depth (1 # 1000) demo_deproject
                   1280 720 [detA; detB; detC]).1
       (locate_all 720 1280 demo_depth (1 # 1000) demo_deproject
                   1280 720 [detA; detB; detC]).2.
Proof.
  split; [lia|]. split; [lia|].
  apply (locate_depth_pixel 720 1280 demo_depth (1 # 1000) demo_deproject
           1280 720 [detA; detB; detC]); lia.
Defined.

Lemma merge_keeps_first_witness :
  length cand_positions = length cand_boxes
  /\ exists merged,
       merge demo_sqrt cand_boxes cand_positions
       = Ok (mkPersonBox 1 0 0 1000 400 2 :: merged)
       /\ mkPersonBox 1 0 0 1000 400 2 :: merged `sublist_of` cand_boxes.
Proof.
  split; [reflexivity|].
  apply (merge_keeps_first demo_sqrt (mkPersonBox 1 0 0 1000 400 2)
           [mkPersonBox 2 300 0 1300 400 (21 # 10);
            mkPersonBox 3 20 500 120 700 4] cand_positions).
  reflexivity.
Defined.

Lemma merge_separate_unchanged_witness :
  length far_positions = length far_boxes
  /\ (forall i j pb1 pp1 pb2 pp2,
        (i < j)%nat ->
        far_boxes !! i = Some pb1 -> far_positions !! i = Some pp1 ->
        far_boxes !! j = Some pb2 -> far_positions !! j = Some pp2 ->
        merge_logic demo_sqrt pb1 pp1 pb2 pp2 = Ok false)
  /\ merge demo_sqrt far_boxes far_positions = Ok far_boxes.
Proof.
  assert (Hsep : forall i j pb1 pp1 pb2 pp2,
            (i < j)%nat ->
            far_boxes !! i = Some pb1 -> far_positions !! i = Some pp1 ->
            far_boxes !! j = Some pb2 -> far_positions !! j = Some pp2 ->
            merge_logic demo_sqrt pb1 pp1 pb2 pp2 = Ok false).
  { intros [|[|i]] [|[|[|j]]] pb1 pp1 pb2 pp2 Hij; simpl;
      intros H1 H2 H3 H4; try lia; try discriminate.
    injection H1 as <-. injection H2 as <-.
    injection H3 as <-. injection H4 as <-. reflexivity. }
  split; [reflexivity|]. split; [exact Hsep|].
  apply (merge_separate_unchanged demo_sqrt far_boxes far_positions);
    [reflexivity | exact Hsep].
Defined.

Lemma process_frame_result_witness :
  exists persons alerts,
    process_frame 720 1280 (fun _ _ => 300%Z) (1 # 1000) demo_deproject
                  demo_sqrt [tensor_two] 1280 720
    = Ok (persons, alerts)
    /\ StronglySorted Z.lt (map pid persons)
    /\ Forall (fun pb => (1 <= pid pb)%Z) persons
    /\ Forall (fun al : Alert =>
                 (al.1.1 < al.1.2)%Z
                 /\ al.1.1 ∈ map pid persons /\ al.1.2 ∈ map pid persons
                 /\ al.2 < 8 # 10) alerts.
Proof.
  destruct (process_frame 720 1280 (fun _ _ => 300%Z) (1 # 1000)
              demo_deproject demo_sqrt [tensor_two] 1280 720)
    as [[persons alerts]|e] eqn:E; [|vm_compute in E; discriminate].
  exists persons, alerts. split; [reflexivity|].
  apply (process_frame_result 720 1280 (fun _ _ => 300%Z) (1 # 1000)
           demo_deproject demo_sqrt [tensor_two] 1280 720 persons alerts E).
Defined.

Lemma red_iff_too_close_witness :
  exists alerts,
    NoDup (map pid near_persons)
    /\ close_pairs demo_deproject demo_sqrt near_persons = Ok alerts
    /\ near_persons !! 1%nat = Some (mkPersonBox 2 600 300 680 420 (1 # 2))
    /\ (box_color alerts 2 = (0, 0, 255)%Z
        <-> exists j pb',
              near_persons !! j = Some pb'
              /\ (((1 < j)%nat
                   /\ norm_diff demo_sqrt
                        (center_point demo_deproject
                           (mkPersonBox 2 600 300 680 420 (1 # 2)))
                        (center_point demo_deproject pb') < 8 # 10)
                  \/ ((j < 1)%nat
                      /\ norm_diff demo_sqrt
                           (center_point demo_deproject pb')
                           (center_point demo_deproject
                              (mkPersonBox 2 600 300 680 420 (1 # 2)))
                         < 8 # 10))).
Proof.
  assert (Hnd : NoDup (map pid near_persons)).
  { simpl. repeat constructor; rewrite ?elem_of_cons, ?elem_of_nil;
      intros H; repeat destruct H as [H|H]; discriminate || done. }
  destruct (close_pairs demo_deproject demo_sqrt near_persons)
    as [alerts|e] eqn:E; [|vm_compute in E; discriminate].
  exists alerts. split; [exact Hnd|]. split; [reflexivity|].
  split; [reflexivity|].
  apply (red_iff_too_close demo_deproject demo_sqrt near_persons alerts 1
           (mkPersonBox 2 600 300 680 420 (1 # 2)) Hnd E). reflexivity.
Defined.

Lemma fps_run_increasing_witness :
  0 < 10 /\ StronglySorted Qlt [10; 10 + (1 # 30); 10 + (2 # 30)]
  /\ exists last shown,
       fps_run [10; 10 + (1 # 30); 10 + (2 # 30)] = Ok (last, 0 :: shown)
       /\ Forall2 (fun fps tt => 0 < fps /\ fps * (tt.2 - tt.1) == 1)
            shown (zip [10; 10 + (1 # 30); 10 + (2 # 30)]
                       [10 + (1 # 30); 10 + (2 # 30)]).
Proof.
  assert (Hs : StronglySorted Qlt [10; 10 + (1 # 30); 10 + (2 # 30)]).
  { repeat constructor; reflexivity. }
  split; [reflexivity|]. split; [exact Hs|].
  apply (fps_run_increasing 10 [10 + (1 # 30); 10 + (2 # 30)]);
    [reflexivity | exact Hs].
Defined.

Lemma preprocess_tensor_witness :
  let img := demo_resize demo_frame (INPUT_W, INPUT_H) in
  img_rows img = Z.to_nat INPUT_H /\ img_cols img = Z.to_nat INPUT_W
  /\ img_chans img = 3%nat
  /\ (forall y x c, (y < img_rows img)%nat -> (x < img_cols img)%nat ->
                    (c < img_chans img)%nat ->
                    (0 <= img_px img y x c <= 255)%Z)
  /\ a4_shape (preprocess demo_resize demo_frame) = (1, 3, 640, 640)%nat
  /\ forall n c y x,
       (n < 1)%nat -> (c < 3)%nat -> (y < 640)%nat -> (x < 640)%nat ->
       a4_at (preprocess demo_resize demo_frame) n c y x
       = inject_Z (img_px img y x (2 - c)) / 255
       /\ 0 <= a4_at (preprocess demo_resize demo_frame) n c y x <= 1.
Proof.
  intros img.
  assert (Hpx : forall y x c, (y < img_rows img)%nat ->
                  (x < img_cols img)%nat -> (c < img_chans img)%nat ->
                  (0 <= img_px img y x c <= 255)%Z).
  { intros y x c _ _ _. simpl. lia. }
  split; [reflexivity|]. split; [reflexivity|]. split; [reflexivity|].
  split; [exact Hpx|].
  apply (preprocess_tensor demo_resize demo_frame);
    [reflexivity | reflexivity | reflexivity | exact Hpx].
Defined.

(** The red channel of the tensor is the third channel of the frame. *)
Example preprocess_red_channel :
  a4_at (preprocess demo_resize demo_frame) 0 0 5 7 == 200 # 255
  /\ a4_at (preprocess demo_resize demo_frame) 0 2 5 7 == 100 # 255.
Proof. split; reflexivity. Qed.

(** A box with its corners in the wrong order and a degenerate box: the
    denominator is [-1e-6 + 0 - 0 + 1e-6], and [compute_iou] raises. *)
Example compute_iou_can_raise :
  compute_iou (mkBox 0 0 (1 # 1000) (-1 # 1000)) (mkBox 5 5 5 5)
  = Raise ZeroDivisionError.
Proof. reflexivity. Qed.
